(** * ethdistance: the transaction tree and the breadth-first driver

    A shallow embedding of [src/ethdistance.py].  The class
    [transaction_tree] becomes a record whose methods run in a small
    state-and-exception monad (the state is the object [self]); the
    driver [shortest_path] threads that object and its local queue.

    Conventions of the embedding:
    - wallets and hashes are [string]s; [dict] is [gmap], [set] is [gset];
    - Python [int] depths are [Z];
    - [str.lower] is modelled on ASCII letters (addresses are hexadecimal
      text), other characters are left alone;
    - the Etherscan client is a function from a wallet to the finite list
      of its transactions, so [API_key] is not a parameter; [time.sleep]
      (and with it [free_API_key]) has no effect on the result and is left
      out; [max_depth] is always passed;
    - [stack] bounds the recursion depth of [path_to_root] (exceeding it is
      Python's [RecursionError]); [steps] bounds the number of iterations
      of the [while] loop of [shortest_path]. *)

From Stdlib Require Import ZArith Ascii String.
From stdpp Require Import gmap strings list.

Local Open Scope string_scope.
Local Open Scope Z_scope.
Local Open Scope list_scope.

(** ** Data *)

Record transaction_tree := {
  root_wallet : string;
  parent_info : gmap string (string * string);
  observed_wallets : gset string;
  leaves : gset string
}.

(** [transaction_tree.__init__] *)
Definition transaction_tree_init (root : string) : transaction_tree :=
  {| root_wallet := root;
     parent_info := ∅;
     observed_wallets := {[ root ]};
     leaves := {[ root ]} |}.

(** An Etherscan transaction object, with the three attributes the
    program reads. *)
Record etherscan_tx := {
  from_address : string;
  to_address : string;
  txhash : string
}.

(** ** Exceptions and the method monad *)

Inductive exn := AssertionError | KeyError | RecursionError.

Inductive outcome (A : Type) :=
| Ok (a : A)
| Raise (e : exn).
Arguments Ok {A} a.
Arguments Raise {A} e.

(** A method body: it receives [self] and gives back its result together
    with [self] as it is left, also when an exception escapes. *)
Definition M (A : Type) : Type := transaction_tree → outcome A * transaction_tree.

#[global] Instance M_ret : MRet M := λ A a self, (Ok a, self).

#[global] Instance M_bind : MBind M := λ A B k m self,
  match m self with
  | (Ok a, self') => k a self'
  | (Raise e, self') => (Raise e, self')
  end.

Definition raise {A} (e : exn) : M A := λ self, (Raise e, self).
Definition get : M transaction_tree := λ self, (Ok self, self).
Definition modify (f : transaction_tree → transaction_tree) : M unit :=
  λ self, (Ok tt, f self).

(** [assert b] *)
Definition py_assert (b : bool) : M unit :=
  if b then mret tt else raise AssertionError.

(** [d[k]] *)
Definition getitem {V} (d : gmap string V) (k : string) : M V :=
  match d !! k with
  | Some v => mret v
  | None => raise KeyError
  end.

(** Field updates of [self]. *)
Definition set_parent_info (k : string) (v : string * string) (self : transaction_tree) :=
  {| root_wallet := root_wallet self;
     parent_info := <[ k := v ]> (parent_info self);
     observed_wallets := observed_wallets self;
     leaves := leaves self |}.

Definition observed_add (w : string) (self : transaction_tree) :=
  {| root_wallet := root_wallet self;
     parent_info := parent_info self;
     observed_wallets := observed_wallets self ∪ {[ w ]};
     leaves := leaves self |}.

Definition leaves_discard (w : string) (self : transaction_tree) :=
  {| root_wallet := root_wallet self;
     parent_info := parent_info self;
     observed_wallets := observed_wallets self;
     leaves := leaves self ∖ {[ w ]} |}.

Definition leaves_add (w : string) (self : transaction_tree) :=
  {| root_wallet := root_wallet self;
     parent_info := parent_info self;
     observed_wallets := observed_wallets self;
     leaves := leaves self ∪ {[ w ]} |}.

(** ** Methods of [transaction_tree] *)

(** [transaction_tree.expand] *)
Definition expand (parent_wallet child_wallet tx_hash : string) : M unit :=
  self ← get;
  py_assert (bool_decide (parent_wallet ∈ observed_wallets self));;
  self ← get;
  py_assert (bool_decide (child_wallet ∉ observed_wallets self));;
  modify (set_parent_info child_wallet (parent_wallet, tx_hash));;
  modify (observed_add child_wallet);;
  modify (leaves_discard parent_wallet);;
  modify (leaves_add child_wallet).

(** [transaction_tree.path_to_root] *)
Fixpoint path_to_root (stack : nat) (wallet : string)
  : M (list string * list string) :=
  self ← get;
  py_assert (bool_decide (wallet ∈ observed_wallets self));;
  if bool_decide (wallet = root_wallet self) then
    mret ([root_wallet self], [])
  else
    '(parent, tx) ← getitem (parent_info self) wallet;
    match stack with
    | O => raise RecursionError
    | S stack' =>
        '(partial_path_to_root, partial_txs_to_root) ← path_to_root stack' parent;
        mret (wallet :: partial_path_to_root, tx :: partial_txs_to_root)
    end.

(** ** Module-level functions *)

(** [str.lower], on ASCII letters. *)
Definition lower_ascii (c : ascii) : ascii :=
  let n := nat_of_ascii c in
  if ((65 <=? n) && (n <=? 90))%nat then ascii_of_nat (n + 32) else c.

Fixpoint lower (s : string) : string :=
  match s with
  | EmptyString => EmptyString
  | String c s' => String (lower_ascii c) (lower s')
  end.

(** [neighbor_address] *)
Definition neighbor_address (etherscan_tx : etherscan_tx) (wallet : string) : string :=
  if bool_decide (lower (from_address etherscan_tx) = lower wallet)
  then to_address etherscan_tx
  else from_address etherscan_tx.

(** What [shortest_path] returns: the two lists of [path_to_root], or
    [False]. *)
Inductive retval :=
| Path (wallets txs : list string)
| PyFalse.

Section Driver.

(** [client.get_all_transactions(wallet, 1)] *)
Variable get_all_transactions : string → list etherscan_tx.
Variable target_wallet : string.
Variable max_depth : Z.
Variable stack : nat.

(** The body of the [for] loop, for one transaction: either the
    function returns ([inl]), or the loop goes on with the queue
    ([inr]). *)
Definition visit (wallet : string) (depth : Z) (tx : etherscan_tx)
    (queue : list (string * Z)) : M (retval + list (string * Z)) :=
  let new_wallet := lower (neighbor_address tx wallet) in
  tree ← get;
  (if bool_decide (new_wallet ∉ observed_wallets tree)
      && negb (bool_decide (new_wallet = ""))
   then expand wallet new_wallet (txhash tx)
   else mret tt);;
  if bool_decide (new_wallet = target_wallet) then
    '(ws, hs) ← path_to_root stack new_wallet;
    mret (inl (Path ws hs))
  else if depth <? max_depth then
    mret (inr (queue ++ [(new_wallet, depth + 1)]))
  else
    mret (inr queue).

(** The [for] loop over the transactions of one wallet. *)
Fixpoint for_txs (wallet : string) (depth : Z) (txs : list etherscan_tx)
    (queue : list (string * Z)) : M (retval + list (string * Z)) :=
  match txs with
  | [] => mret (inr queue)
  | tx :: txs' =>
      r ← visit wallet depth tx queue;
      match r with
      | inl v => mret (inl v)
      | inr queue' => for_txs wallet depth txs' queue'
      end
  end.

(** The [while] loop; [None] when [steps] iterations did not finish it. *)
Fixpoint while_queue (steps : nat) (queue : list (string * Z))
    : M (option retval) :=
  match queue with
  | [] => mret (Some PyFalse)
  | (wallet, depth) :: queue' =>
      match steps with
      | O => mret None
      | S steps' =>
          r ← for_txs wallet depth (get_all_transactions wallet) queue';
          match r with
          | inl v => mret (Some v)
          | inr queue'' => while_queue steps' queue''
          end
      end
  end.

End Driver.

(** [shortest_path]: the result of the call and the tree it built. *)
Definition shortest_path (steps stack : nat)
    (get_all_transactions : string → list etherscan_tx)
    (source_wallet target_wallet : string) (max_depth : Z)
    : outcome (option retval) * transaction_tree :=
  let source_wallet := lower source_wallet in
  let target_wallet := lower target_wallet in
  while_queue get_all_transactions target_wallet max_depth stack steps
    [(source_wallet, 0)] (transaction_tree_init source_wallet).

(** ** Scenarios used below *)

Definition tx_AB := {| from_address := "0xA"; to_address := "0xB"; txhash := "0x1" |}.
Definition tx_AC := {| from_address := "0xA"; to_address := "0xC"; txhash := "0x2" |}.
Definition tx_CB := {| from_address := "0xC"; to_address := "0xB"; txhash := "0x3" |}.

(** The two-hop data source. *)
Definition two_hop (wallet : string) : list etherscan_tx :=
  if bool_decide (wallet = "0xa") then [tx_AC]
  else if bool_decide (wallet = "0xc") then [tx_CB]
  else [].

Definition tx_AC' := {| from_address := "0xA"; to_address := "0xC"; txhash := "0x4" |}.

(** A contract creation sent by [0xA]: Etherscan reports an empty
    receiver. *)
Definition tx_create := {| from_address := "0xA"; to_address := ""; txhash := "0x9" |}.
Definition tx_from_empty := {| from_address := ""; to_address := "0xD"; txhash := "0x8" |}.

Definition creation_source (wallet : string) : list etherscan_tx :=
  if bool_decide (wallet = "0xa") then [tx_create]
  else if bool_decide (wallet = "") then [tx_from_empty]
  else [].

(** ** Trees built through the class interface *)

(** The object after a successful [expand]. *)
Definition expanded (parent_wallet child_wallet tx_hash : string)
    (self : transaction_tree) : transaction_tree :=
  leaves_add child_wallet
    (leaves_discard parent_wallet
       (observed_add child_wallet
          (set_parent_info child_wallet (parent_wallet, tx_hash) self))).

(** The states an object can be in: built by [__init__], then changed by
    calls of [expand] that returned. *)
Inductive reachable : transaction_tree → Prop :=
| reachable_init root :
    reachable (transaction_tree_init root)
| reachable_expand t parent child h t' :
    reachable t →
    expand parent child h t = (Ok tt, t') →
    reachable t'.

(** The walk along [parent_info] from a wallet up to the root, as a
    relation: the wallets met and the hashes of the links followed. *)
Inductive chain (t : transaction_tree) : string → list string → list string → Prop :=
| chain_root :
    root_wallet t ∈ observed_wallets t →
    chain t (root_wallet t) [root_wallet t] []
| chain_step w p h ws hs :
    w ∈ observed_wallets t →
    w ≠ root_wallet t →
    parent_info t !! w = Some (p, h) →
    chain t p ws hs →
    chain t w (w :: ws) (h :: hs).

(** What holds of every reachable tree. *)
Record tree_inv (t : transaction_tree) : Prop := {
  inv_root : root_wallet t ∈ observed_wallets t;
  inv_links : ∀ c p h, parent_info t !! c = Some (p, h) →
      c ∈ observed_wallets t ∧ p ∈ observed_wallets t ∧ c ≠ root_wallet t;
  inv_leaves : ∀ w, w ∈ leaves t ↔
      w ∈ observed_wallets t ∧ ¬ ∃ c h, parent_info t !! c = Some (w, h);
  inv_walk : ∀ w, w ∈ observed_wallets t →
      ∃ ws hs, chain t w ws hs ∧ NoDup ws
}.

(** The queue after the last statement of the loop body. *)
Definition enqueue (max_depth depth : Z) (new_wallet : string)
    (queue : list (string * Z)) : list (string * Z) :=
  if depth <? max_depth then queue ++ [(new_wallet, depth + 1)] else queue.

(** The walk from [w] to the root has at most [k] links. *)
Definition depth_le (t : transaction_tree) (w : string) (k : Z) : Prop :=
  ∃ ws hs, chain t w ws hs ∧ Z.of_nat (length hs) ≤ k.

(** A queue entry: its depth is within the bound, its wallet is at most
    that deep in the tree, and only the empty string is queued without
    being observed. *)
Definition entry_ok (max_depth : Z) (t : transaction_tree) (x : string * Z) : Prop :=
  x.2 ≤ max_depth ∧
  (x.1 ∈ observed_wallets t → depth_le t x.1 x.2) ∧
  (x.1 ∉ observed_wallets t → x.1 = "").

(** The queue holds entries of depth [d], then entries of depth [d + 1]. *)
Definition layered (d : Z) (q : list (string * Z)) : Prop :=
  ∃ qa qb, q = qa ++ qb ∧
    Forall (λ x, x.2 = d) qa ∧ Forall (λ x, x.2 = d + 1) qb.

Definition queue_ok (max_depth : Z) (t : transaction_tree) (d : Z)
    (q : list (string * Z)) : Prop :=
  layered d q ∧ Forall (entry_ok max_depth t) q.

(** The tree while the transactions of [wallet], dequeued at depth [d],
    are gone through. *)
Record visiting (max_depth : Z) (t : transaction_tree) (wallet : string) (d : Z)
  : Prop := {
  vis_tree : tree_inv t;
  vis_depth : 0 ≤ d ≤ max_depth;
  vis_wallet : entry_ok max_depth t (wallet, d);
  vis_all : ∀ n, n ∈ observed_wallets t → depth_le t n (d + 1)
}.

(** The tree at the head of the [while] loop. *)
Definition loop_inv (max_depth : Z) (t : transaction_tree)
    (q : list (string * Z)) : Prop :=
  tree_inv t ∧
  ∃ d, 0 ≤ d ≤ max_depth ∧
       (∀ n, n ∈ observed_wallets t → depth_le t n (d + 1)) ∧
       queue_ok max_depth t d q.

(** The tree with root [0xa] and the one link [0xb -> 0xa]. *)
Definition tree_ab : transaction_tree :=
  expanded "0xa" "0xb" "0x1" (transaction_tree_init "0xa").

(** ** Notions used for the further properties *)

(** [extends t t']: [t'] is [t] after some calls of [expand] that
    returned. *)
Inductive extends (t : transaction_tree) : transaction_tree → Prop :=
| extends_refl : extends t t
| extends_expand t1 parent child h t' :
    extends t t1 →
    expand parent child h t1 = (Ok tt, t') →
    extends t t'.

(** [hop client v n]: the data source reports for wallet [v] a transaction
    whose other side, in lower case, is [n]. *)
Definition hop (client : string → list etherscan_tx) (v n : string) : Prop :=
  ∃ tx, tx ∈ client v ∧ lower (neighbor_address tx v) = n.

(** [route client src v k]: [v] is reached from [src] in [k] hops. *)
Inductive route (client : string → list etherscan_tx) (src : string)
  : string → nat → Prop :=
| route_here : route client src src 0
| route_hop v n k :
    route client src v k → hop client v n → route client src n (S k).

(** Every link of the tree was read off a transaction of the parent. *)
Definition justified (client : string → list etherscan_tx)
    (t : transaction_tree) : Prop :=
  ∀ c p h, parent_info t !! c = Some (p, h) →
    ∃ tx, tx ∈ client p ∧ txhash tx = h ∧ lower (neighbor_address tx p) = c.

(** An entry whose transactions were all gone through without meeting
    the target; [E] holds the entries enqueued so far. *)
Definition settled (client : string → list etherscan_tx) (target : string)
    (max_depth : Z) (E : string * Z → Prop) (v : string) (e : Z) : Prop :=
  ∀ tx, tx ∈ client v →
    lower (neighbor_address tx v) ≠ target ∧
    (e < max_depth → E (lower (neighbor_address tx v), e + 1)).

(** Every entry enqueued so far is still in the queue or settled. *)
Definition frontier_inv (client : string → list etherscan_tx)
    (source target : string) (max_depth : Z) (q : list (string * Z)) : Prop :=
  ∃ E : string * Z → Prop,
    E (source, 0) ∧
    ∀ v e, E (v, e) → (v, e) ∈ q ∨ settled client target max_depth E v e.

(** The entries one batch adds to the queue. *)
Definition batch_entries (max_depth : Z) (wallet : string) (depth : Z)
    (txs : list etherscan_tx) : list (string * Z) :=
  if depth <? max_depth
  then map (λ tx, (lower (neighbor_address tx wallet), depth + 1)) txs
  else [].

(** The [while] loop started on [q] and [t] comes to an end: from some
    number of iterations on, the bound is not what stops it. *)
Definition finishes (client : string → list etherscan_tx) (target : string)
    (max_depth : Z) (stack : nat) (q : list (string * Z))
    (t : transaction_tree) : Prop :=
  ∃ steps, ∀ steps', (steps ≤ steps')%nat →
    (while_queue client target max_depth stack steps' q t).1 ≠ Ok None.

(** A data source without empty counterparts. *)
Definition clean (client : string → list etherscan_tx) : Prop :=
  ∀ w tx, tx ∈ client w → lower (neighbor_address tx w) ≠ "".

(** ** The monad, unfolded *)

Ltac unfold_M :=
  cbv beta iota delta
    [mbind M_bind mret M_ret get modify raise py_assert getitem] in *.

Lemma expand_ok parent child h t :
  parent ∈ observed_wallets t →
  child ∉ observed_wallets t →
  expand parent child h t = (Ok tt, expanded parent child h t).
Proof.
  intros Hp Hc. unfold expand. unfold_M.
  rewrite (bool_decide_eq_true_2 _ Hp). unfold_M.
  rewrite (bool_decide_eq_true_2 _ Hc). reflexivity.
Qed.

Lemma expand_fail parent child h t :
  parent ∉ observed_wallets t ∨ child ∈ observed_wallets t →
  expand parent child h t = (Raise AssertionError, t).
Proof.
  intros H. unfold expand. unfold_M.
  destruct (decide (parent ∈ observed_wallets t)) as [Hp|Hp].
  - rewrite (bool_decide_eq_true_2 _ Hp). unfold_M.
    destruct H as [H|H]; [done|].
    rewrite bool_decide_eq_false_2; [reflexivity|]. intros Hn. by apply Hn.
  - by rewrite (bool_decide_eq_false_2 _ Hp).
Qed.

Lemma expand_inv parent child h t r t' :
  expand parent child h t = (r, t') →
  (parent ∈ observed_wallets t ∧ (child ∉ observed_wallets t) ∧
   r = Ok tt ∧ t' = expanded parent child h t)
  ∨ ((parent ∉ observed_wallets t ∨ child ∈ observed_wallets t) ∧
     r = Raise AssertionError ∧ t' = t).
Proof.
  intros H.
  destruct (decide (parent ∈ observed_wallets t)) as [Hp|Hp];
    [destruct (decide (child ∈ observed_wallets t)) as [Hc|Hc]|].
  - rewrite expand_fail in H by auto. right. naive_solver.
  - rewrite expand_ok in H by auto. left. naive_solver.
  - rewrite expand_fail in H by auto. right. naive_solver.
Qed.

(** One unfolding of [path_to_root]. *)
Lemma path_to_root_eq stack w t :
  path_to_root stack w t =
  if bool_decide (w ∈ observed_wallets t) then
    if bool_decide (w = root_wallet t) then (Ok ([root_wallet t], []), t)
    else
      match parent_info t !! w with
      | None => (Raise KeyError, t)
      | Some (p, tx) =>
          match stack with
          | O => (Raise RecursionError, t)
          | S stack' =>
              match path_to_root stack' p t with
              | (Ok (ws, hs), t') => (Ok (w :: ws, tx :: hs), t')
              | (Raise e, t') => (Raise e, t')
              end
          end
      end
  else (Raise AssertionError, t).
Proof.
  destruct stack; simpl; unfold_M;
    repeat case_bool_decide; try reflexivity;
    destruct (parent_info t !! w) as [[p tx]|]; try reflexivity.
  destruct (path_to_root stack p t) as [[[ws hs]|e] t']; reflexivity.
Qed.

(** [path_to_root] only reads the object. *)
Lemma path_to_root_state stack w t :
  (path_to_root stack w t).2 = t.
Proof.
  revert w. induction stack as [|stack IH]; intros w;
    rewrite path_to_root_eq; repeat case_bool_decide; try reflexivity;
    destruct (parent_info t !! w) as [[p tx]|]; try reflexivity.
  specialize (IH p).
  destruct (path_to_root stack p t) as [[[ws hs]|e] t']; simpl in *; done.
Qed.

(** ** [path_to_root] and the walk relation *)

(** A returned path is a walk. *)
Lemma path_to_root_chain stack w t ws hs t' :
  path_to_root stack w t = (Ok (ws, hs), t') →
  chain t w ws hs.
Proof.
  revert w ws hs. induction stack as [|stack IH]; intros w ws hs;
    rewrite path_to_root_eq.
  - repeat case_bool_decide; try done.
    + intros [= <- <- <-]. subst w. by constructor.
    + destruct (parent_info t !! w) as [[p tx]|]; done.
  - repeat case_bool_decide; try done.
    + intros [= <- <- <-]. subst w. by constructor.
    + destruct (parent_info t !! w) as [[p tx]|] eqn:Hw; [|done].
      destruct (path_to_root stack p t) as [[[ws' hs']|e] t''] eqn:Hrec; [|done].
      intros [= <- <- <-]. econstructor; eauto.
Qed.

(** A walk is returned as soon as the stack allows as many nested calls
    as the walk has links. *)
Lemma chain_path_to_root t w ws hs :
  chain t w ws hs →
  ∀ stack, (length hs ≤ stack)%nat →
  path_to_root stack w t = (Ok (ws, hs), t).
Proof.
  induction 1 as [Hroot|w p h ws hs Hobs Hne Hw Hch IH]; intros stack Hlen;
    rewrite path_to_root_eq.
  - rewrite (bool_decide_eq_true_2 _ Hroot).
    by rewrite bool_decide_eq_true_2.
  - rewrite (bool_decide_eq_true_2 _ Hobs), (bool_decide_eq_false_2 _ Hne), Hw.
    destruct stack as [|stack]; simpl in Hlen; [lia|].
    rewrite IH by lia. reflexivity.
Qed.

Lemma chain_functional t w ws1 hs1 ws2 hs2 :
  chain t w ws1 hs1 → chain t w ws2 hs2 → ws1 = ws2 ∧ hs1 = hs2.
Proof.
  intros H1 H2.
  pose proof (chain_path_to_root _ _ _ _ H1 (length hs1 `max` length hs2)) as E1.
  pose proof (chain_path_to_root _ _ _ _ H2 (length hs1 `max` length hs2)) as E2.
  rewrite E1 in E2 by lia. specialize (E2 ltac:(lia)). by injection E2.
Qed.

(** Shape of a walk. *)
Lemma chain_head t w ws hs : chain t w ws hs → head ws = Some w.
Proof. by destruct 1. Qed.

Lemma chain_last t w ws hs : chain t w ws hs → last ws = Some (root_wallet t).
Proof.
  induction 1 as [|w p h ws hs _ _ _ Hch IH]; [done|].
  destruct ws; [by inversion Hch|]. exact IH.
Qed.

Lemma chain_length t w ws hs : chain t w ws hs → length ws = S (length hs).
Proof. induction 1; simpl; congruence. Qed.

Lemma chain_observed t w ws hs :
  chain t w ws hs → ∀ x, x ∈ ws → x ∈ observed_wallets t.
Proof.
  induction 1 as [|w p h ws hs Hobs _ _ _ IH]; intros x Hx.
  - apply list_elem_of_singleton in Hx. by subst.
  - apply elem_of_cons in Hx as [->|Hx]; auto.
Qed.

(** Every hash of a walk is the one stored for the wallet at its
    position, whose parent is the next wallet of the walk. *)
Lemma chain_links t w ws hs :
  chain t w ws hs →
  ∀ i h, hs !! i = Some h →
  ∃ a b, ws !! i = Some a ∧ ws !! S i = Some b ∧
         parent_info t !! a = Some (b, h).
Proof.
  induction 1 as [|w p h0 ws hs _ _ Hw Hch IH]; intros i h Hi; [done|].
  destruct i as [|i]; simpl in *.
  - injection Hi as ->. exists w, p. split; [done|]. split; [|done].
    apply chain_head in Hch. by destruct ws; simplify_eq/=.
  - destruct (IH i h Hi) as (a & b & ? & ? & ?). by exists a, b.
Qed.

(** ** Invariants of reachable trees *)

(** A walk of the old tree is a walk of the tree after a successful [expand]. *)
Lemma chain_expanded_old parent child h t w ws hs :
  child ∉ observed_wallets t →
  chain t w ws hs →
  chain (expanded parent child h t) w ws hs.
Proof.
  intros Hc. induction 1 as [Hroot|w p h0 ws hs Hobs Hne Hw _ IH].
  - apply (chain_root (expanded parent child h t)). simpl. set_solver.
  - apply (chain_step (expanded parent child h t)) with (p := p); try done.
    + simpl. set_solver.
    + simpl. rewrite lookup_insert_ne; [done|]. intros ->. done.
Qed.

(** The expanded wallet walks to its parent first. *)
Lemma chain_expanded_new parent child h t ws hs :
  child ∉ observed_wallets t →
  chain t parent ws hs →
  chain (expanded parent child h t) child (child :: ws) (h :: hs).
Proof.
  intros Hc Hch.
  apply (chain_step (expanded parent child h t)) with (p := parent).
  - simpl. set_solver.
  - simpl. intros ->. apply Hc.
    apply (chain_observed _ _ _ _ Hch).
    apply chain_last in Hch. by apply last_Some_elem_of.
  - simpl. by rewrite lookup_insert_eq.
  - by apply chain_expanded_old.
Qed.

Lemma tree_inv_init root : tree_inv (transaction_tree_init root).
Proof.
  split; simpl.
  - set_solver.
  - intros c p h Hc. by rewrite lookup_empty in Hc.
  - intros w. split.
    + intros Hw. split; [done|]. intros (c & h & Hc). by rewrite lookup_empty in Hc.
    + by intros [Hw _].
  - intros w Hw. apply elem_of_singleton in Hw as ->.
    exists [root], []. split.
    + apply (chain_root (transaction_tree_init root)). simpl. set_solver.
    + apply NoDup_singleton.
Qed.

(** Membership in [observed_wallets] after a successful [expand]. *)
Lemma elem_of_added_ne (X : gset string) (w child : string) :
  w ∈ X ∪ {[child]} → w ≠ child → w ∈ X.
Proof.
  intros Hw Hne. apply elem_of_union in Hw as [Hw|Hw]; [done|].
  by apply elem_of_singleton in Hw.
Qed.

Ltac in_observed :=
  apply elem_of_union;
  first [ left; assumption | right; apply elem_of_singleton_2; reflexivity ].

Lemma tree_inv_expanded parent child h t :
  tree_inv t →
  parent ∈ observed_wallets t →
  child ∉ observed_wallets t →
  tree_inv (expanded parent child h t).
Proof.
  intros [Hroot Hlinks Hleaves Hwalk] Hp Hc.
  assert (Hpc : parent ≠ child) by (intros ->; done).
  split; simpl.
  - in_observed.
  - intros c p h0 Hl. destruct (decide (child = c)) as [<-|Hne].
    + rewrite lookup_insert_eq in Hl. injection Hl as <- <-.
      split; [in_observed|]. split; [in_observed|]. intros ->. done.
    + rewrite lookup_insert_ne in Hl by done.
      destruct (Hlinks _ _ _ Hl) as (? & ? & ?). repeat split; [in_observed..|done].
  - intros w. rewrite elem_of_union, elem_of_difference, !elem_of_singleton, Hleaves.
    split.
    + intros [[[Hw Hno] Hwp]| ->].
      * split; [in_observed|]. intros (c & h0 & Hl).
        destruct (decide (child = c)) as [<-|Hne].
        -- rewrite lookup_insert_eq in Hl. by injection Hl as <- <-.
        -- rewrite lookup_insert_ne in Hl by done. apply Hno. eauto.
      * split; [in_observed|]. intros (c & h0 & Hl).
        destruct (decide (child = c)) as [<-|Hne].
        -- rewrite lookup_insert_eq in Hl. by injection Hl as <- <-.
        -- rewrite lookup_insert_ne in Hl by done.
           destruct (Hlinks _ _ _ Hl) as (? & ? & ?). done.
    + intros [Hw Hno]. destruct (decide (w = child)) as [->|Hne]; [by right|].
      left. split; [split|].
      * by apply (elem_of_added_ne _ _ child).
      * intros (c & h0 & Hl). apply Hno. exists c, h0.
        rewrite lookup_insert_ne; [done|]. intros <-.
        destruct (Hlinks _ _ _ Hl) as (? & ? & ?). done.
      * intros ->. apply Hno. exists child, h. by rewrite lookup_insert_eq.
  - intros w Hw. destruct (decide (w = child)) as [->|Hne].
    + destruct (Hwalk parent Hp) as (ws & hs & Hch & Hnd).
      exists (child :: ws), (h :: hs). split.
      * by apply chain_expanded_new.
      * apply NoDup_cons. split; [|done].
        intros Hin. apply Hc. by apply (chain_observed _ _ _ _ Hch).
    + destruct (Hwalk w) as (ws & hs & Hch & Hnd);
        [by apply (elem_of_added_ne _ _ child)|].
      exists ws, hs. split; [|done]. by apply chain_expanded_old.
Qed.

Lemma reachable_inv t : reachable t → tree_inv t.
Proof.
  induction 1 as [root|t parent child h t' _ IH Hex].
  - apply tree_inv_init.
  - apply expand_inv in Hex as [(Hp & Hc & _ & ->)|(_ & [=] & _)].
    by apply tree_inv_expanded.
Qed.

(** A walk without repetition has fewer links than there are observed
    wallets. *)
Lemma chain_short t w ws hs :
  chain t w ws hs → NoDup ws →
  (S (length hs) ≤ size (observed_wallets t))%nat.
Proof.
  intros Hch Hnd. rewrite <- (chain_length _ _ _ _ Hch).
  rewrite <- (size_list_to_set (C := gset string) ws) by done.
  apply subseteq_size. intros x Hx. apply elem_of_list_to_set in Hx.
  by apply (chain_observed _ _ _ _ Hch).
Qed.

(** On a reachable tree a call on an observed wallet can only stop for
    want of stack. *)
Lemma chain_path_to_root_any t w ws hs :
  chain t w ws hs →
  ∀ stack,
    path_to_root stack w t = (Ok (ws, hs), t) ∨
    path_to_root stack w t = (Raise RecursionError, t).
Proof.
  induction 1 as [Hroot|w p h ws hs Hobs Hne Hw Hch IH]; intros stack;
    rewrite path_to_root_eq.
  - rewrite (bool_decide_eq_true_2 _ Hroot).
    left. by rewrite bool_decide_eq_true_2.
  - rewrite (bool_decide_eq_true_2 _ Hobs), (bool_decide_eq_false_2 _ Hne), Hw.
    destruct stack as [|stack]; [by right|].
    destruct (IH stack) as [-> | ->]; auto.
Qed.

Lemma path_to_root_unobserved stack w t :
  w ∉ observed_wallets t →
  path_to_root stack w t = (Raise AssertionError, t).
Proof.
  intros Hw. rewrite path_to_root_eq. by rewrite (bool_decide_eq_false_2 _ Hw).
Qed.

Lemma reachable_tree_ab : reachable tree_ab.
Proof.
  apply (reachable_expand (transaction_tree_init "0xa") "0xa" "0xb" "0x1").
  - apply reachable_init.
  - apply expand_ok; simpl.
    + by apply elem_of_singleton.
    + intros H%elem_of_singleton. discriminate H.
Defined.

Lemma tree_ab_observed_b : "0xb" ∈ observed_wallets tree_ab.
Proof. simpl. apply elem_of_union. right. by apply elem_of_singleton. Defined.

Lemma tree_ab_unobserved_c : "0xc" ∉ observed_wallets tree_ab.
Proof.
  simpl. intros [H|H]%elem_of_union; apply elem_of_singleton in H; discriminate H.
Defined.

(** ** The tree: contracts of [expand] and [path_to_root] *)

(** C4: on a tree built by [__init__] and successful [expand] calls,
    [path_to_root] of an observed wallet [w] returns two lists [wallets]
    and [txs] (for every stack that allows as many nested calls as there
    are observed wallets): [wallets] starts with [w] and ends with the
    root, has one element more than [txs], and the hash at position [i] is
    the one stored in [parent_info] for [wallets[i]], whose stored parent
    is [wallets[i+1]]; for the root itself the result is [([root], [])]. *)
Theorem C4_path_to_root_contract t w :
  reachable t →
  w ∈ observed_wallets t →
  ∃ wallets txs,
    (∀ stack, (size (observed_wallets t) ≤ stack)%nat →
       path_to_root stack w t = (Ok (wallets, txs), t)) ∧
    head wallets = Some w ∧
    last wallets = Some (root_wallet t) ∧
    length wallets = (length txs + 1)%nat ∧
    (∀ i h, txs !! i = Some h →
       ∃ a b, wallets !! i = Some a ∧ wallets !! S i = Some b ∧
              parent_info t !! a = Some (b, h)) ∧
    (w = root_wallet t → wallets = [root_wallet t] ∧ txs = []).
Proof.
  intros Hr Hw. apply reachable_inv in Hr.
  destruct (inv_walk t Hr w Hw) as (ws & hs & Hch & Hnd).
  exists ws, hs. repeat split.
  - intros stack Hs. apply chain_path_to_root; [done|].
    pose proof (chain_short _ _ _ _ Hch Hnd). lia.
  - by apply chain_head in Hch.
  - by apply chain_last in Hch.
  - rewrite (chain_length _ _ _ _ Hch). lia.
  - by apply chain_links with (w := w).
  - inversion Hch; congruence.
  - inversion Hch; congruence.
Qed.

Lemma C4_path_to_root_contract_witness :
  ∃ wallets txs,
    (∀ stack, (size (observed_wallets tree_ab) ≤ stack)%nat →
       path_to_root stack "0xb" tree_ab = (Ok (wallets, txs), tree_ab)) ∧
    head wallets = Some "0xb" ∧
    last wallets = Some (root_wallet tree_ab) ∧
    length wallets = (length txs + 1)%nat ∧
    (∀ i h, txs !! i = Some h →
       ∃ a b, wallets !! i = Some a ∧ wallets !! S i = Some b ∧
              parent_info tree_ab !! a = Some (b, h)) ∧
    ("0xb" = root_wallet tree_ab → wallets = [root_wallet tree_ab] ∧ txs = []).
Proof.
  exact (C4_path_to_root_contract tree_ab "0xb"
           reachable_tree_ab tree_ab_observed_b).
Defined.

(** C5: [expand] raises [AssertionError] exactly when the parent is not
    observed or the child is already observed; otherwise it returns, having
    stored [(parent, tx_hash)] under the child in [parent_info] (other
    entries untouched), added the child to [observed_wallets], removed the
    parent from [leaves] (whether or not it was there) and added the child
    to [leaves].  On a reachable tree [path_to_root] raises
    [AssertionError] exactly when the wallet is not observed. *)
Theorem C5_assertion_failures t :
  reachable t →
  (∀ parent child h,
     ((expand parent child h t).1 = Raise AssertionError
      ↔ parent ∉ observed_wallets t ∨ child ∈ observed_wallets t) ∧
     ((expand parent child h t).1 ≠ Raise AssertionError →
      ∃ t', expand parent child h t = (Ok tt, t') ∧
        parent_info t' = <[ child := (parent, h) ]> (parent_info t) ∧
        observed_wallets t' = observed_wallets t ∪ {[ child ]} ∧
        leaves t' = leaves t ∖ {[ parent ]} ∪ {[ child ]} ∧
        root_wallet t' = root_wallet t)) ∧
  (∀ stack w,
     (path_to_root stack w t).1 = Raise AssertionError
     ↔ w ∉ observed_wallets t).
Proof.
  intros Hr. split.
  - intros parent child h.
    destruct (expand parent child h t) as [r t'] eqn:Hex.
    apply expand_inv in Hex as [(Hp & Hc & -> & ->)|(Hbad & -> & ->)]; simpl.
    + split.
      * split; [done|]. intros [?|?]; done.
      * intros _. by exists (expanded parent child h t).
    + split; [done|]. by intros Hne.
  - intros stack w. split.
    + intros Hres Hw.
      destruct (inv_walk t (reachable_inv t Hr) w Hw) as (ws & hs & Hch & _).
      destruct (chain_path_to_root_any _ _ _ _ Hch stack) as [E|E];
        rewrite E in Hres; discriminate Hres.
    + intros Hw. by rewrite path_to_root_unobserved.
Qed.

Lemma C5_assertion_failures_witness :
  (expand "0xa" "0xb" "0x7" tree_ab).1 = Raise AssertionError ∧
  (path_to_root 5 "0xc" tree_ab).1 = Raise AssertionError.
Proof.
  destruct (C5_assertion_failures tree_ab reachable_tree_ab) as [He Hp].
  split.
  - apply (He "0xa" "0xb" "0x7"). right. exact tree_ab_observed_b.
  - apply (Hp 5%nat "0xc"). exact tree_ab_unobserved_c.
Defined.

(** C6: on a tree built by [__init__] and successful [expand] calls,
    [leaves] holds exactly the observed wallets that are the parent in no
    entry of [parent_info]. *)
Theorem C6_leaves_consistency t :
  reachable t →
  ∀ w, w ∈ leaves t ↔
       w ∈ observed_wallets t ∧ ¬ ∃ c h, parent_info t !! c = Some (w, h).
Proof. intros Hr. apply inv_leaves. by apply reachable_inv. Qed.

Lemma C6_leaves_consistency_witness :
  "0xb" ∈ leaves tree_ab ↔
  "0xb" ∈ observed_wallets tree_ab ∧
  ¬ ∃ c h, parent_info tree_ab !! c = Some ("0xb", h).
Proof. exact (C6_leaves_consistency tree_ab reachable_tree_ab "0xb"). Defined.

(** C7: on a tree built by [__init__] and successful [expand] calls, the
    walk along [parent_info] from an observed wallet reaches the root,
    meets no wallet twice and follows fewer links than there are observed
    wallets; so [path_to_root] returns that walk whenever the stack allows
    [|observed_wallets|] nested calls. *)
Theorem C7_walk_terminates t w :
  reachable t →
  w ∈ observed_wallets t →
  ∃ wallets txs,
    chain t w wallets txs ∧
    last wallets = Some (root_wallet t) ∧
    NoDup wallets ∧
    (length txs < size (observed_wallets t))%nat ∧
    (∀ stack, (size (observed_wallets t) ≤ stack)%nat →
       path_to_root stack w t = (Ok (wallets, txs), t)).
Proof.
  intros Hr Hw. apply reachable_inv in Hr.
  destruct (inv_walk t Hr w Hw) as (ws & hs & Hch & Hnd).
  pose proof (chain_short _ _ _ _ Hch Hnd) as Hlen.
  exists ws, hs. repeat split; try done.
  - by apply chain_last in Hch.
  - intros stack Hs. apply chain_path_to_root; [done|lia].
Qed.

Lemma C7_walk_terminates_witness :
  ∃ wallets txs,
    chain tree_ab "0xb" wallets txs ∧
    last wallets = Some (root_wallet tree_ab) ∧
    NoDup wallets ∧
    (length txs < size (observed_wallets tree_ab))%nat ∧
    (∀ stack, (size (observed_wallets tree_ab) ≤ stack)%nat →
       path_to_root stack "0xb" tree_ab = (Ok (wallets, txs), tree_ab)).
Proof.
  exact (C7_walk_terminates tree_ab "0xb" reachable_tree_ab tree_ab_observed_b).
Defined.

(** C10: a call of [expand] whose parent is not observed or whose child
    is observed, and a call of [path_to_root] on a wallet that is not
    observed, raise [AssertionError] and leave the object as it was. *)
Theorem C10_failure_leaves_tree_unchanged t parent child h stack w :
  parent ∉ observed_wallets t ∨ child ∈ observed_wallets t →
  w ∉ observed_wallets t →
  expand parent child h t = (Raise AssertionError, t) ∧
  path_to_root stack w t = (Raise AssertionError, t).
Proof.
  intros Hbad Hw. split.
  - by apply expand_fail.
  - by apply path_to_root_unobserved.
Qed.

Lemma C10_failure_leaves_tree_unchanged_witness :
  expand "0xa" "0xb" "0x7" tree_ab = (Raise AssertionError, tree_ab) ∧
  path_to_root 5 "0xc" tree_ab = (Raise AssertionError, tree_ab).
Proof.
  apply C10_failure_leaves_tree_unchanged.
  - right. exact tree_ab_observed_b.
  - exact tree_ab_unobserved_c.
Defined.

(** ** The driver, unfolded *)

Section DriverFacts.

Variable get_all_transactions : string → list etherscan_tx.
Variable target_wallet : string.
Variable max_depth : Z.
Variable stack : nat.

Lemma visit_eq wallet depth tx queue t :
  visit target_wallet max_depth stack wallet depth tx queue t =
  let new_wallet := lower (neighbor_address tx wallet) in
  match
    (if bool_decide (new_wallet ∉ observed_wallets t)
        && negb (bool_decide (new_wallet = ""))
     then expand wallet new_wallet (txhash tx) t
     else (Ok tt, t))
  with
  | (Ok _, t1) =>
      if bool_decide (new_wallet = target_wallet) then
        match path_to_root stack new_wallet t1 with
        | (Ok (ws, hs), t2) => (Ok (inl (Path ws hs)), t2)
        | (Raise e, t2) => (Raise e, t2)
        end
      else (Ok (inr (enqueue max_depth depth new_wallet queue)), t1)
  | (Raise e, t1) => (Raise e, t1)
  end.
Proof.
  unfold visit, enqueue. unfold_M.
  destruct (bool_decide _ && negb _).
  - destruct (expand _ _ _ t) as [[[]|e] t1]; [|reflexivity].
    case_bool_decide; [|by destruct (_ <? _)].
    by destruct (path_to_root _ _ t1) as [[[ws hs]|e] t2].
  - case_bool_decide; [|by destruct (_ <? _)].
    by destruct (path_to_root _ _ t) as [[[ws hs]|e] t2].
Qed.

Lemma for_txs_cons wallet depth tx txs queue t :
  for_txs target_wallet max_depth stack wallet depth (tx :: txs) queue t =
  match visit target_wallet max_depth stack wallet depth tx queue t with
  | (Ok (inl v), t1) => (Ok (inl v), t1)
  | (Ok (inr queue'), t1) =>
      for_txs target_wallet max_depth stack wallet depth txs queue' t1
  | (Raise e, t1) => (Raise e, t1)
  end.
Proof.
  simpl. unfold_M.
  by destruct (visit target_wallet max_depth stack wallet depth tx queue t)
    as [[[v|queue']|e] t1].
Qed.

Lemma while_queue_S steps wallet depth queue t :
  while_queue get_all_transactions target_wallet max_depth stack (S steps)
    ((wallet, depth) :: queue) t =
  match
    for_txs target_wallet max_depth stack wallet depth
      (get_all_transactions wallet) queue t
  with
  | (Ok (inl v), t1) => (Ok (Some v), t1)
  | (Ok (inr queue'), t1) =>
      while_queue get_all_transactions target_wallet max_depth stack steps
        queue' t1
  | (Raise e, t1) => (Raise e, t1)
  end.
Proof.
  simpl. unfold_M.
  by destruct (for_txs target_wallet max_depth stack wallet depth _ queue t)
    as [[[v|queue']|e] t1].
Qed.

(** A transaction whose neighbor is already observed, or is the empty
    string, calls no [expand]. *)
Lemma visit_known wallet depth tx queue t new_wallet :
  lower (neighbor_address tx wallet) = new_wallet →
  new_wallet ∈ observed_wallets t ∨ new_wallet = "" →
  new_wallet ≠ target_wallet →
  visit target_wallet max_depth stack wallet depth tx queue t
  = (Ok (inr (enqueue max_depth depth new_wallet queue)), t).
Proof.
  intros Heq Hn Hne. rewrite visit_eq, Heq. simpl.
  replace (bool_decide (new_wallet ∉ observed_wallets t)
           && negb (bool_decide (new_wallet = ""))) with false.
  - by rewrite (bool_decide_eq_false_2 _ Hne).
  - symmetry. apply andb_false_iff. destruct Hn as [Hn|Hn].
    + left. apply bool_decide_eq_false_2. intros Hx. by apply Hx.
    + right. by rewrite (bool_decide_eq_true_2 _ Hn).
Qed.

(** A transaction to a wallet not seen before adds it to the tree under
    the wallet being visited. *)
Lemma visit_new wallet depth tx queue t new_wallet :
  lower (neighbor_address tx wallet) = new_wallet →
  wallet ∈ observed_wallets t →
  new_wallet ∉ observed_wallets t →
  new_wallet ≠ "" →
  new_wallet ≠ target_wallet →
  visit target_wallet max_depth stack wallet depth tx queue t
  = (Ok (inr (enqueue max_depth depth new_wallet queue)),
     expanded wallet new_wallet (txhash tx) t).
Proof.
  intros Heq Hw Hn Hne Htgt. rewrite visit_eq, Heq. simpl.
  rewrite (bool_decide_eq_true_2 _ Hn), (bool_decide_eq_false_2 _ Hne).
  simpl. rewrite expand_ok by done.
  by rewrite (bool_decide_eq_false_2 _ Htgt).
Qed.

End DriverFacts.

(** ** The depth bound of the search *)

Lemma depth_le_mono t w k k' : depth_le t w k → k ≤ k' → depth_le t w k'.
Proof. intros (ws & hs & Hch & Hk) Hle. exists ws, hs. split; [done|lia]. Qed.

Lemma depth_le_expanded_old parent child h t w k :
  child ∉ observed_wallets t →
  depth_le t w k → depth_le (expanded parent child h t) w k.
Proof.
  intros Hc (ws & hs & Hch & Hk). exists ws, hs.
  split; [by apply chain_expanded_old|done].
Qed.

Lemma depth_le_expanded_new parent child h t k :
  child ∉ observed_wallets t →
  depth_le t parent k → depth_le (expanded parent child h t) child (k + 1).
Proof.
  intros Hc (ws & hs & Hch & Hk). exists (child :: ws), (h :: hs).
  split; [by apply chain_expanded_new|]. simpl length. lia.
Qed.

Lemma entry_ok_expanded max_depth parent child h t x :
  child ∉ observed_wallets t → child ≠ "" →
  entry_ok max_depth t x → entry_ok max_depth (expanded parent child h t) x.
Proof.
  intros Hc Hne (Hd & Hin & Hout). split; [done|]. split.
  - intros Hx'. destruct (decide (x.1 ∈ observed_wallets t)) as [Hx|Hx].
    + apply depth_le_expanded_old; auto.
    + exfalso. apply Hne. rewrite <- (Hout Hx).
      destruct (decide (x.1 = child)) as [E|E]; [done|].
      exfalso. apply Hx. by apply (elem_of_added_ne _ _ child).
  - intros Hx. apply Hout. intros Hx'. apply Hx. simpl. in_observed.
Qed.

Section DepthBound.

Variable get_all_transactions : string → list etherscan_tx.
Variable target_wallet : string.
Variable max_depth : Z.
Variable stack : nat.

Lemma queue_ok_enqueue t wallet d q n :
  visiting max_depth t wallet d →
  queue_ok max_depth t d q →
  (n ∉ observed_wallets t → n = "") →
  queue_ok max_depth t d (enqueue max_depth d n q).
Proof.
  intros Hv [(qa & qb & -> & Ha & Hb) Hq] Hn. unfold enqueue.
  destruct (d <? max_depth) eqn:Hd; [|by split; [exists qa, qb|]].
  apply Z.ltb_lt in Hd. split.
  - exists qa, (qb ++ [(n, d + 1)]). rewrite app_assoc. split; [done|].
    split; [done|]. apply Forall_app. split; [done|]. by apply Forall_singleton.
  - apply Forall_app. split; [done|]. apply Forall_singleton.
    split; [simpl; lia|]. split; [|done]. simpl. apply (vis_all _ _ _ _ Hv).
Qed.

(** The end of the loop body: the test against the target and the
    enqueueing. *)
Lemma visit_tail_inv t wallet d q n r t' :
  visiting max_depth t wallet d →
  queue_ok max_depth t d q →
  (n ∉ observed_wallets t → n = "") →
  (if bool_decide (n = target_wallet) then
     match path_to_root stack n t with
     | (Ok (ws, hs), t2) => (Ok (inl (Path ws hs)), t2)
     | (Raise e, t2) => (Raise e, t2)
     end
   else (Ok (inr (enqueue max_depth d n q)), t)) = (r, t') →
  visiting max_depth t' wallet d ∧
  ∀ q', r = Ok (inr q') → queue_ok max_depth t' d q'.
Proof.
  intros Hv Hq Hn. case_bool_decide.
  - pose proof (path_to_root_state stack n t) as Hst.
    destruct (path_to_root stack n t) as [[[ws hs]|e] t2]; simpl in Hst;
      subst t2; intros [= <- <-]; (split; [done|]); intros q' [=].
  - intros [= <- <-]. split; [done|]. intros q' [= <-].
    by apply queue_ok_enqueue with (wallet := wallet).
Qed.

Lemma visit_inv t wallet d tx q r t' :
  visiting max_depth t wallet d →
  queue_ok max_depth t d q →
  visit target_wallet max_depth stack wallet d tx q t = (r, t') →
  visiting max_depth t' wallet d ∧
  ∀ q', r = Ok (inr q') → queue_ok max_depth t' d q'.
Proof.
  intros Hv Hq. rewrite visit_eq. simpl.
  set (n := lower (neighbor_address tx wallet)).
  destruct (bool_decide (n ∉ observed_wallets t)
            && negb (bool_decide (n = ""))) eqn:Hb.
  - apply andb_true_iff in Hb as [Hnew Hne].
    apply bool_decide_eq_true_1 in Hnew.
    apply negb_true_iff, bool_decide_eq_false_1 in Hne.
    destruct (expand wallet n (txhash tx) t) as [r1 t1] eqn:Hex.
    apply expand_inv in Hex as [(Hw & _ & -> & ->)|(_ & -> & ->)].
    + apply visit_tail_inv.
      * destruct Hv as [Htree Hd Hwal Hall]. split.
        -- by apply tree_inv_expanded.
        -- done.
        -- by apply entry_ok_expanded.
        -- intros x Hx. destruct (decide (x = n)) as [->|Hxn].
           ++ apply depth_le_expanded_new; [done|].
              by apply (proj1 (proj2 Hwal)).
           ++ apply depth_le_expanded_old; [done|]. apply Hall.
              by apply (elem_of_added_ne _ _ n).
      * destruct Hq as [Hlay Hent]. split; [done|].
        eapply Forall_impl; [exact Hent|]. intros x.
        by apply entry_ok_expanded.
      * intros Hout. exfalso. apply Hout. simpl. in_observed.
    + intros [= <- <-]. split; [done|]. intros q' [=].
  - apply visit_tail_inv; [done..|].
    apply andb_false_iff in Hb as [Hb|Hb].
    + apply bool_decide_eq_false_1 in Hb. intros Hout. by destruct Hb.
    + apply negb_false_iff, bool_decide_eq_true_1 in Hb. done.
Qed.

Lemma for_txs_inv wallet d txs : ∀ t q r t',
  visiting max_depth t wallet d →
  queue_ok max_depth t d q →
  for_txs target_wallet max_depth stack wallet d txs q t = (r, t') →
  visiting max_depth t' wallet d ∧
  ∀ q', r = Ok (inr q') → queue_ok max_depth t' d q'.
Proof.
  induction txs as [|tx txs IH]; intros t q r t' Hv Hq.
  - intros [= <- <-]. split; [done|]. by intros q' [= <-].
  - rewrite for_txs_cons.
    destruct (visit target_wallet max_depth stack wallet d tx q t)
      as [r1 t1] eqn:Hvis.
    destruct (visit_inv _ _ _ _ _ _ _ Hv Hq Hvis) as [Hv1 Hq1].
    destruct r1 as [[v|q1]|e].
    + intros [= <- <-]. split; [done|]. intros q' [=].
    + apply IH; auto.
    + intros [= <- <-]. split; [done|]. intros q' [=].
Qed.

Lemma loop_inv_bounded t q :
  loop_inv max_depth t q →
  tree_inv t ∧ ∀ n, n ∈ observed_wallets t → depth_le t n (max_depth + 1).
Proof.
  intros (Htree & d & Hd & Hall & _). split; [done|].
  intros n Hn. apply depth_le_mono with (k := d + 1); [auto|lia].
Qed.

Lemma visiting_loop_inv t wallet d q :
  visiting max_depth t wallet d → queue_ok max_depth t d q → loop_inv max_depth t q.
Proof. intros [Htree Hd _ Hall] Hq. split; [done|]. by exists d. Qed.

Lemma visiting_bounded t wallet d :
  visiting max_depth t wallet d →
  tree_inv t ∧ ∀ n, n ∈ observed_wallets t → depth_le t n (max_depth + 1).
Proof.
  intros [Htree Hd _ Hall]. split; [done|].
  intros n Hn. apply depth_le_mono with (k := d + 1); [auto|lia].
Qed.

(** Taking the first entry off the queue. *)
Lemma loop_inv_dequeue t wallet e q :
  loop_inv max_depth t ((wallet, e) :: q) →
  visiting max_depth t wallet e ∧ queue_ok max_depth t e q.
Proof.
  intros (Htree & d & Hd & Hall & (qa & qb & Heq & Ha & Hb) & Hent).
  apply Forall_cons in Hent as [Hhd Hent].
  assert (0 ≤ e ≤ max_depth ∧ d ≤ e ∧ layered e q) as (He & Hde & Hlay).
  { destruct qa as [|x qa]; simpl in Heq.
    - destruct qb as [|x qb]; [done|]. injection Heq as <- <-.
      apply Forall_cons in Hb as [Hx Hb]. simpl in Hx. subst e.
      destruct Hhd as (Hle & _). simpl in Hle.
      split; [lia|]. split; [lia|].
      exists q, []. rewrite app_nil_r. by repeat split.
    - injection Heq as <- ->. apply Forall_cons in Ha as [Hx Ha].
      simpl in Hx. subst e. split; [done|]. split; [lia|]. by exists qa, qb. }
  split; [|done]. split; try done.
  intros n Hn. apply depth_le_mono with (k := d + 1); [auto|lia].
Qed.

Lemma while_queue_inv steps : ∀ q t r t',
  loop_inv max_depth t q →
  while_queue get_all_transactions target_wallet max_depth stack steps q t
  = (r, t') →
  tree_inv t' ∧ ∀ n, n ∈ observed_wallets t' → depth_le t' n (max_depth + 1).
Proof.
  induction steps as [|steps IH]; intros q t r t' Hinv.
  - destruct q as [|[wallet e] q]; intros [= <- <-];
      exact (loop_inv_bounded _ _ Hinv).
  - destruct q as [|[wallet e] q].
    + intros [= <- <-]. exact (loop_inv_bounded _ _ Hinv).
    + rewrite while_queue_S.
      apply loop_inv_dequeue in Hinv as [Hv Hq].
      destruct (for_txs target_wallet max_depth stack wallet e
                  (get_all_transactions wallet) q t) as [r1 t1] eqn:Hfor.
      destruct (for_txs_inv _ _ _ _ _ _ _ Hv Hq Hfor) as [Hv1 Hq1].
      destruct r1 as [[v|q1]|err].
      * intros [= <- <-]. exact (visiting_bounded _ _ _ Hv1).
      * apply IH. eapply visiting_loop_inv; eauto.
      * intros [= <- <-]. exact (visiting_bounded _ _ _ Hv1).
Qed.

End DepthBound.

(** ** The driver: scenarios and properties of a run *)

(** The two-hop scenario of the specification, with [max_depth = 2]. *)
Example two_hop_depth_two :
  (shortest_path 2 2 two_hop "0xA" "0xB" 2).1
  = Ok (Some (Path ["0xb"; "0xc"; "0xa"] ["0x3"; "0x2"])).
Proof. vm_compute. reflexivity. Qed.

(** Evaluates the [for] loop in the goal once its transactions are known. *)
Ltac eval_for_txs :=
  match goal with
  | |- context [for_txs ?tg ?md ?st ?w ?d ?txs ?q ?t] =>
      let r := fresh "r" in
      set (r := for_txs tg md st w d txs q t);
      vm_compute in r; subst r; cbv beta iota
  end.

(** C1 as stated fails: in the two-hop configuration a call with
    [max_depth = 1] never returns [False], whatever the bounds on the loop
    and on the stack. *)
Lemma C1_two_hop_depth_one_counterexample :
  ¬ ∃ steps stack,
      (shortest_path steps stack two_hop "0xA" "0xB" 1).1 = Ok (Some PyFalse).
Proof.
  intros (steps & stack & H).
  destruct steps as [|[|steps]]; [discriminate H..|].
  destruct stack as [|[|[|stack]]]; vm_compute in H; discriminate H.
Qed.

(** C1, amended: in the two-hop configuration a call with [max_depth = 1]
    returns the path [0xb, 0xc, 0xa] with the hashes [0x3, 0x2], because
    the wallet [0xc], dequeued at depth 1, still has its transactions gone
    through; the call returns [False] with [max_depth = 0]. *)
Theorem C1_two_hop_depth_one steps stack get_all_transactions :
  get_all_transactions "0xa" = [tx_AC] →
  get_all_transactions "0xc" = [tx_CB] →
  (2 ≤ steps)%nat →
  (2 ≤ stack)%nat →
  (shortest_path steps stack get_all_transactions "0xA" "0xB" 1).1
  = Ok (Some (Path ["0xb"; "0xc"; "0xa"] ["0x3"; "0x2"])) ∧
  (shortest_path steps stack get_all_transactions "0xA" "0xB" 0).1
  = Ok (Some PyFalse).
Proof.
  intros Ha Hc Hsteps Hstack.
  destruct steps as [|[|steps]]; [lia..|].
  destruct stack as [|[|stack]]; [lia..|].
  unfold shortest_path.
  change (lower "0xA") with "0xa". change (lower "0xB") with "0xb".
  split.
  - rewrite while_queue_S, Ha. eval_for_txs.
    rewrite while_queue_S, Hc.
    destruct stack; eval_for_txs; reflexivity.
  - rewrite while_queue_S, Ha. eval_for_txs. reflexivity.
Qed.

Lemma C1_two_hop_depth_one_witness :
  (shortest_path 2 2 two_hop "0xA" "0xB" 1).1
  = Ok (Some (Path ["0xb"; "0xc"; "0xa"] ["0x3"; "0x2"])) ∧
  (shortest_path 2 2 two_hop "0xA" "0xB" 0).1
  = Ok (Some PyFalse).
Proof.
  apply (C1_two_hop_depth_one 2 2 two_hop); [reflexivity | reflexivity | lia | lia].
Defined.

(** C2 as stated fails: with two transactions of [0xa] that both point to
    the new wallet [0xc], the wallet is added to the tree once, but the
    number of queue entries made for it is not one: none with
    [max_depth = 0], two with [max_depth = 1]. *)
Lemma C2_duplicate_neighbor_counterexample :
  for_txs "0xb" 0 10 "0xa" 0 [tx_AC; tx_AC'] [] (transaction_tree_init "0xa")
  = (Ok (inr []), expanded "0xa" "0xc" "0x2" (transaction_tree_init "0xa")) ∧
  for_txs "0xb" 1 10 "0xa" 0 [tx_AC; tx_AC'] [] (transaction_tree_init "0xa")
  = (Ok (inr [("0xc", 1); ("0xc", 1)]),
     expanded "0xa" "0xc" "0x2" (transaction_tree_init "0xa")).
Proof. split; vm_compute; reflexivity. Qed.

(** C2, amended: when two transactions of an observed wallet point to the
    same new, non-empty neighbor that is not the target, the first one
    adds the neighbor to the tree (one [expand], with the first hash) and
    the second one leaves the tree as it is, as does any later transaction
    to a wallet that is observed by then; the queue receives entries for
    the neighbor only when [depth < max_depth], and none otherwise. *)
Theorem C2_duplicate_neighbor_single_expand
    target max_depth stack wallet depth tx1 tx2 q t n :
  lower (neighbor_address tx1 wallet) = n →
  lower (neighbor_address tx2 wallet) = n →
  wallet ∈ observed_wallets t →
  n ∉ observed_wallets t →
  n ≠ "" →
  n ≠ target →
  ∃ q1 q2,
    visit target max_depth stack wallet depth tx1 q t
    = (Ok (inr q1), expanded wallet n (txhash tx1) t) ∧
    visit target max_depth stack wallet depth tx2 q1
      (expanded wallet n (txhash tx1) t)
    = (Ok (inr q2), expanded wallet n (txhash tx1) t) ∧
    for_txs target max_depth stack wallet depth [tx1; tx2] q t
    = (Ok (inr q2), expanded wallet n (txhash tx1) t) ∧
    (∀ t' q', n ∈ observed_wallets t' →
       (visit target max_depth stack wallet depth tx2 q' t').2 = t') ∧
    (max_depth ≤ depth → q2 = q) ∧
    (∀ x, x ∈ q2 → x ∈ q ∨ (x = (n, depth + 1) ∧ depth < max_depth)).
Proof.
  intros H1 H2 Hw Hn Hne Htgt.
  set (t1 := expanded wallet n (txhash tx1) t).
  assert (Hn1 : n ∈ observed_wallets t1) by (simpl; in_observed).
  pose proof (visit_new target max_depth stack _ depth _ q _ _ H1 Hw Hn Hne Htgt)
    as E1.
  pose proof (visit_known target max_depth stack wallet depth _
                (enqueue max_depth depth n q) t1 _ H2 (or_introl Hn1) Htgt) as E2.
  exists (enqueue max_depth depth n q),
         (enqueue max_depth depth n (enqueue max_depth depth n q)).
  split; [exact E1|]. split; [exact E2|]. split; [|split; [|split]].
  - rewrite for_txs_cons. fold t1 in E1. rewrite E1.
    rewrite for_txs_cons, E2. reflexivity.
  - intros t' q' Hin.
    by rewrite (visit_known target max_depth stack wallet depth _ q' t' _ H2
                  (or_introl Hin) Htgt).
  - intros Hd. unfold enqueue.
    destruct (depth <? max_depth) eqn:E; [apply Z.ltb_lt in E; lia|done].
  - intros x. unfold enqueue.
    destruct (depth <? max_depth) eqn:E; [apply Z.ltb_lt in E|auto].
    rewrite !elem_of_app, !list_elem_of_singleton. intros [[Hx|Hx]|Hx]; auto.
Qed.

Lemma C2_duplicate_neighbor_single_expand_witness :
  ∃ q1 q2,
    visit "0xb" 1 10 "0xa" 0 tx_AC [] (transaction_tree_init "0xa")
    = (Ok (inr q1), expanded "0xa" "0xc" (txhash tx_AC) (transaction_tree_init "0xa")) ∧
    visit "0xb" 1 10 "0xa" 0 tx_AC' q1
      (expanded "0xa" "0xc" (txhash tx_AC) (transaction_tree_init "0xa"))
    = (Ok (inr q2), expanded "0xa" "0xc" (txhash tx_AC) (transaction_tree_init "0xa")) ∧
    for_txs "0xb" 1 10 "0xa" 0 [tx_AC; tx_AC'] [] (transaction_tree_init "0xa")
    = (Ok (inr q2), expanded "0xa" "0xc" (txhash tx_AC) (transaction_tree_init "0xa")) ∧
    (∀ t' q', "0xc" ∈ observed_wallets t' →
       (visit "0xb" 1 10 "0xa" 0 tx_AC' q' t').2 = t') ∧
    (1 ≤ 0 → q2 = []) ∧
    (∀ x, x ∈ q2 → x ∈ [] ∨ (x = ("0xc", 0 + 1) ∧ 0 < 1)).
Proof.
  apply (C2_duplicate_neighbor_single_expand
           "0xb" 1 10 "0xa" 0 tx_AC tx_AC' [] (transaction_tree_init "0xa") "0xc").
  - reflexivity.
  - reflexivity.
  - simpl. by apply elem_of_singleton.
  - simpl. intros H%elem_of_singleton. discriminate H.
  - discriminate.
  - discriminate.
Defined.

(** C3, on the code: a transaction whose neighbor is the empty string is
    not added to the tree, yet the empty string is put on the queue; once it is
    dequeued, a transaction reported for it makes [expand] fail its first
    assertion. *)
Theorem C3_empty_neighbor_is_enqueued :
  lower (neighbor_address tx_create "0xa") = "" ∧
  visit "0xb" 1 10 "0xa" 0 tx_create [] (transaction_tree_init "0xa")
  = (Ok (inr [("", 1)]), transaction_tree_init "0xa") ∧
  (shortest_path 10 10 creation_source "0xA" "0xB" 1).1 = Raise AssertionError.
Proof. repeat split; vm_compute; reflexivity. Qed.

(** C8: in a run of [shortest_path] with [0 <= max_depth], whether it
    returned, raised or is still looping, every wallet of the tree has a
    path to the root, returned by [path_to_root], with at most
    [max_depth + 1] links. *)
Theorem C8_path_length_bound
    steps stack get_all_transactions source_wallet target_wallet max_depth w :
  0 ≤ max_depth →
  let t := (shortest_path steps stack get_all_transactions
              source_wallet target_wallet max_depth).2 in
  w ∈ observed_wallets t →
  ∃ wallets txs,
    (∀ stack', (size (observed_wallets t) ≤ stack')%nat →
       path_to_root stack' w t = (Ok (wallets, txs), t)) ∧
    Z.of_nat (length wallets) - 1 ≤ max_depth + 1.
Proof.
  intros Hmd t Hw. subst t. unfold shortest_path in *.
  set (src := lower source_wallet) in *. set (tgt := lower target_wallet) in *.
  destruct (while_queue get_all_transactions tgt max_depth stack steps
              [(src, 0)] (transaction_tree_init src)) as [r t] eqn:Hrun.
  simpl in *.
  apply while_queue_inv in Hrun as [Htree Hall].
  - destruct (Hall w Hw) as (ws & hs & Hch & Hlen).
    destruct (inv_walk t Htree w Hw) as (ws' & hs' & Hch' & Hnd).
    destruct (chain_functional _ _ _ _ _ _ Hch Hch') as [<- <-].
    exists ws, hs. split.
    + intros stack' Hs. apply chain_path_to_root; [done|].
      pose proof (chain_short _ _ _ _ Hch Hnd). lia.
    + rewrite (chain_length _ _ _ _ Hch). lia.
  - pose proof (tree_inv_init src) as Hinit.
    assert (Hroot : depth_le (transaction_tree_init src) src 0).
    { exists [src], []. split; [|simpl; lia].
      apply (chain_root (transaction_tree_init src)). simpl.
      by apply elem_of_singleton. }
    split; [done|]. exists 0. split; [lia|]. split.
    + intros n Hn. simpl in Hn. apply elem_of_singleton in Hn as ->.
      by apply depth_le_mono with (k := 0).
    + split.
      * exists [(src, 0)], []. repeat split; auto.
      * apply Forall_singleton. split; [simpl; lia|]. split; [done|].
        simpl. intros Hout. exfalso. apply Hout. by apply elem_of_singleton.
Qed.

Lemma C8_path_length_bound_witness :
  ∃ wallets txs,
    (∀ stack', (size (observed_wallets
                        (shortest_path 10 10 two_hop "0xA" "0xB" 1).2) ≤ stack')%nat →
       path_to_root stack' "0xb" (shortest_path 10 10 two_hop "0xA" "0xB" 1).2
       = (Ok (wallets, txs), (shortest_path 10 10 two_hop "0xA" "0xB" 1).2)) ∧
    Z.of_nat (length wallets) - 1 ≤ 1 + 1.
Proof.
  apply (C8_path_length_bound 10 10 two_hop "0xA" "0xB" 1 "0xb").
  - lia.
  - apply (bool_decide_unpack _). vm_compute. exact I.
Defined.

(** C9: with source [0xA], target [0xB], [max_depth >= 1] and a data
    source that reports for [0xa] the single transaction from [0xA] to
    [0xB] with hash [0x1], the call returns the wallets [0xb, 0xa] and the
    hashes [0x1]. *)
Theorem C9_direct_edge steps stack get_all_transactions max_depth :
  get_all_transactions "0xa" = [tx_AB] →
  1 ≤ max_depth →
  (1 ≤ steps)%nat →
  (1 ≤ stack)%nat →
  (shortest_path steps stack get_all_transactions "0xA" "0xB" max_depth).1
  = Ok (Some (Path ["0xb"; "0xa"] ["0x1"])).
Proof.
  intros Ha _ Hsteps Hstack.
  destruct steps as [|steps]; [lia|]. destruct stack as [|stack]; [lia|].
  unfold shortest_path.
  change (lower "0xA") with "0xa". change (lower "0xB") with "0xb".
  rewrite while_queue_S, Ha.
  destruct stack; eval_for_txs; reflexivity.
Qed.

Lemma C9_direct_edge_witness :
  (shortest_path 1 1 (λ _, [tx_AB]) "0xA" "0xB" 1).1
  = Ok (Some (Path ["0xb"; "0xa"] ["0x1"])).
Proof.
  apply (C9_direct_edge 1 1 (λ _, [tx_AB]) 1); [reflexivity | lia | lia | lia].
Defined.

(** * Further properties of the code *)

(** ** [str.lower] and [neighbor_address] *)

Lemma lower_ascii_idemp c : lower_ascii (lower_ascii c) = lower_ascii c.
Proof. destruct c as [[] [] [] [] [] [] [] []]; reflexivity. Qed.

Lemma lower_idemp s : lower (lower s) = lower s.
Proof.
  induction s as [|c s IH]; [done|]. simpl. by rewrite lower_ascii_idemp, IH.
Qed.

(** X1: for a transaction between two different wallets, the neighbor of
    a party is the other party, and taking the neighbor twice gives the
    party back (up to case). *)
Theorem X1_neighbor_address_other_side tx wallet :
  lower (from_address tx) ≠ lower (to_address tx) →
  lower wallet = lower (from_address tx) ∨ lower wallet = lower (to_address tx) →
  (lower wallet = lower (from_address tx) →
     neighbor_address tx wallet = to_address tx) ∧
  (lower wallet = lower (to_address tx) →
     neighbor_address tx wallet = from_address tx) ∧
  lower (neighbor_address tx (neighbor_address tx wallet)) = lower wallet.
Proof.
  intros Hne Hparty. unfold neighbor_address.
  destruct Hparty as [Hw|Hw].
  - rewrite (bool_decide_eq_true_2 _ (eq_sym Hw)).
    rewrite (bool_decide_eq_false_2 _ Hne).
    split; [done|]. split; [|done]. intros E. congruence.
  - assert (lower (from_address tx) ≠ lower wallet) as Hf by congruence.
    rewrite (bool_decide_eq_false_2 _ Hf).
    rewrite bool_decide_eq_true_2 by done.
    split; [congruence|]. split; done.
Qed.

Lemma X1_neighbor_address_other_side_witness :
  (lower "0xC" = lower (from_address tx_AC) →
     neighbor_address tx_AC "0xC" = to_address tx_AC) ∧
  (lower "0xC" = lower (to_address tx_AC) →
     neighbor_address tx_AC "0xC" = from_address tx_AC) ∧
  lower (neighbor_address tx_AC (neighbor_address tx_AC "0xC")) = lower "0xC".
Proof.
  apply (X1_neighbor_address_other_side tx_AC "0xC").
  - discriminate.
  - right. reflexivity.
Defined.

(** ** The tree: domain of [parent_info], composition, growth *)

(** The result of [path_to_root] on a walk, for every stack. *)
Lemma chain_path_to_root_exact t w ws hs :
  chain t w ws hs →
  ∀ stack,
    path_to_root stack w t =
    if bool_decide (length hs ≤ stack)%nat then (Ok (ws, hs), t)
    else (Raise RecursionError, t).
Proof.
  induction 1 as [Hroot|w p h ws hs Hobs Hne Hw Hch IH]; intros stack;
    rewrite path_to_root_eq.
  - rewrite (bool_decide_eq_true_2 _ Hroot).
    rewrite bool_decide_eq_true_2 by done.
    rewrite bool_decide_eq_true_2; [done|simpl; lia].
  - rewrite (bool_decide_eq_true_2 _ Hobs), (bool_decide_eq_false_2 _ Hne), Hw.
    destruct stack as [|stack].
    + rewrite bool_decide_eq_false_2; [done|simpl; lia].
    + rewrite IH. simpl length.
      case_bool_decide; case_bool_decide; try done; lia.
Qed.

(** X2: on a tree built by [__init__] and successful [expand] calls, the
    keys of [parent_info] are exactly the observed wallets other than the
    root, so there is one entry less than there are observed wallets. *)
Theorem X2_parent_info_domain t :
  reachable t →
  dom (parent_info t) = observed_wallets t ∖ {[ root_wallet t ]} ∧
  size (observed_wallets t) = S (size (parent_info t)).
Proof.
  intros Hr. apply reachable_inv in Hr as Hinv.
  assert (Hdom : dom (parent_info t) = observed_wallets t ∖ {[ root_wallet t ]}).
  { apply set_eq. intros w.
    rewrite elem_of_dom, elem_of_difference, elem_of_singleton. split.
    - intros [[p h] Hl].
      destruct (inv_links t Hinv _ _ _ Hl) as (? & ? & ?). done.
    - intros [Hw Hne].
      destruct (inv_walk t Hinv w Hw) as (ws & hs & Hch & _).
      inversion Hch; subst; [done|]. eauto. }
  split; [done|].
  rewrite <- size_dom, Hdom.
  rewrite size_difference.
  - rewrite size_singleton.
    assert (size (observed_wallets t) ≠ 0)%nat; [|lia].
    apply size_non_empty_iff. intros He.
    pose proof (inv_root t Hinv) as Hroot. rewrite He in Hroot.
    by apply not_elem_of_empty in Hroot.
  - apply singleton_subseteq_l. apply (inv_root t Hinv).
Qed.

Lemma X2_parent_info_domain_witness :
  dom (parent_info tree_ab) = observed_wallets tree_ab ∖ {[ root_wallet tree_ab ]} ∧
  size (observed_wallets tree_ab) = S (size (parent_info tree_ab)).
Proof. exact (X2_parent_info_domain tree_ab reachable_tree_ab). Defined.

(** X3: [expand] followed by [path_to_root]: when [path_to_root parent]
    returns [(ws, hs)] and [expand parent child h] returns, then
    [path_to_root child] returns [(child :: ws, h :: hs)], with one more
    nested call. *)
Theorem X3_path_to_root_after_expand t parent child h t' stack ws hs :
  path_to_root stack parent t = (Ok (ws, hs), t) →
  expand parent child h t = (Ok tt, t') →
  path_to_root (S stack) child t' = (Ok (child :: ws, h :: hs), t').
Proof.
  intros Hpath Hex.
  apply expand_inv in Hex as [(Hp & Hc & _ & ->)|(_ & [=] & _)].
  pose proof (path_to_root_chain _ _ _ _ _ _ Hpath) as Hch.
  rewrite (chain_path_to_root_exact _ _ _ _ Hch) in Hpath.
  case_bool_decide as Hlen; [|done].
  apply chain_path_to_root; [by apply chain_expanded_new|simpl; lia].
Qed.

Lemma X3_path_to_root_after_expand_witness :
  path_to_root 2 "0xc" (expanded "0xb" "0xc" "0x5" tree_ab)
  = (Ok ("0xc" :: ["0xb"; "0xa"], "0x5" :: ["0x1"]),
     expanded "0xb" "0xc" "0x5" tree_ab).
Proof.
  apply (X3_path_to_root_after_expand tree_ab "0xb" "0xc" "0x5").
  - vm_compute. reflexivity.
  - apply expand_ok; [exact tree_ab_observed_b|exact tree_ab_unobserved_c].
Defined.

Lemma extends_reachable t t' : reachable t → extends t t' → reachable t'.
Proof.
  intros Hr. induction 1 as [|t1 p c h t' _ IH Hex]; [done|].
  by apply (reachable_expand t1 p c h).
Qed.

Lemma extends_grows t t' :
  reachable t → extends t t' →
  root_wallet t' = root_wallet t ∧
  observed_wallets t ⊆ observed_wallets t' ∧
  (∀ c v, parent_info t !! c = Some v → parent_info t' !! c = Some v) ∧
  (∀ w ws hs, chain t w ws hs → chain t' w ws hs).
Proof.
  intros Hr. induction 1 as [|t1 p c h t' Hext IH Hex]; [done|].
  destruct IH as (Hroot & Hobs & Hpi & Hch).
  pose proof (reachable_inv _ (extends_reachable _ _ Hr Hext)) as Hinv.
  apply expand_inv in Hex as [(Hp & Hc & _ & ->)|(_ & [=] & _)].
  split; [done|]. split; [|split].
  - intros w Hw. simpl. apply elem_of_union. left. by apply Hobs.
  - intros k [p' h'] Hk. simpl. apply Hpi in Hk.
    rewrite lookup_insert_ne; [done|]. intros <-.
    by destruct (inv_links _ Hinv _ _ _ Hk) as (? & _).
  - intros w ws hs Hw. apply chain_expanded_old; auto.
Qed.

(** X4: the tree only grows.  After any further successful [expand]
    calls on a reachable tree the root is the same, every observed wallet
    is still observed, every entry of [parent_info] is unchanged, and
    [path_to_root] gives the same result for every wallet that was
    observed. *)
Theorem X4_tree_is_append_only t t' :
  reachable t →
  extends t t' →
  root_wallet t' = root_wallet t ∧
  observed_wallets t ⊆ observed_wallets t' ∧
  (∀ c v, parent_info t !! c = Some v → parent_info t' !! c = Some v) ∧
  (∀ stack w, w ∈ observed_wallets t →
     (path_to_root stack w t').1 = (path_to_root stack w t).1).
Proof.
  intros Hr Hext.
  destruct (extends_grows _ _ Hr Hext) as (Hroot & Hobs & Hpi & Hch).
  repeat split; try done.
  intros stack w Hw.
  destruct (inv_walk t (reachable_inv _ Hr) w Hw) as (ws & hs & Hw1 & _).
  rewrite (chain_path_to_root_exact _ _ _ _ Hw1).
  rewrite (chain_path_to_root_exact _ _ _ _ (Hch _ _ _ Hw1)).
  by case_bool_decide.
Qed.

Lemma extends_tree_ab :
  extends tree_ab (expanded "0xb" "0xc" "0x5" tree_ab).
Proof.
  apply (extends_expand tree_ab tree_ab "0xb" "0xc" "0x5").
  - apply extends_refl.
  - apply expand_ok; [exact tree_ab_observed_b|exact tree_ab_unobserved_c].
Defined.

Lemma X4_tree_is_append_only_witness :
  root_wallet (expanded "0xb" "0xc" "0x5" tree_ab) = root_wallet tree_ab ∧
  observed_wallets tree_ab ⊆ observed_wallets (expanded "0xb" "0xc" "0x5" tree_ab) ∧
  (∀ c v, parent_info tree_ab !! c = Some v →
     parent_info (expanded "0xb" "0xc" "0x5" tree_ab) !! c = Some v) ∧
  (∀ stack w, w ∈ observed_wallets tree_ab →
     (path_to_root stack w (expanded "0xb" "0xc" "0x5" tree_ab)).1
     = (path_to_root stack w tree_ab).1).
Proof.
  exact (X4_tree_is_append_only tree_ab _ reachable_tree_ab extends_tree_ab).
Defined.

(** X5: a wallet enters the tree at most once.  Once [expand] has
    returned for a child, every later [expand] with that child, after any
    further successful calls, raises [AssertionError], and the link stored
    for the child stays. *)
Theorem X5_child_expanded_once t parent child h t1 t2 parent' h' :
  reachable t →
  expand parent child h t = (Ok tt, t1) →
  extends t1 t2 →
  expand parent' child h' t2 = (Raise AssertionError, t2) ∧
  parent_info t2 !! child = Some (parent, h).
Proof.
  intros Hr Hex Hext.
  assert (Hr1 : reachable t1) by (by apply (reachable_expand t parent child h)).
  destruct (extends_grows _ _ Hr1 Hext) as (_ & Hobs & Hpi & _).
  apply expand_inv in Hex as [(Hp & Hc & _ & ->)|(_ & [=] & _)].
  split.
  - apply expand_fail. right. apply Hobs. simpl. in_observed.
  - apply Hpi. simpl. by rewrite lookup_insert_eq.
Qed.

Lemma X5_child_expanded_once_witness :
  expand "0xa" "0xb" "0x6" (expanded "0xb" "0xc" "0x5" tree_ab)
  = (Raise AssertionError, expanded "0xb" "0xc" "0x5" tree_ab) ∧
  parent_info (expanded "0xb" "0xc" "0x5" tree_ab) !! "0xb" = Some ("0xa", "0x1").
Proof.
  apply (X5_child_expanded_once (transaction_tree_init "0xa") "0xa" "0xb" "0x1"
           tree_ab (expanded "0xb" "0xc" "0x5" tree_ab) "0xa" "0x6").
  - apply reachable_init.
  - apply expand_ok; simpl.
    + by apply elem_of_singleton.
    + intros H%elem_of_singleton. discriminate H.
  - exact extends_tree_ab.
Defined.

(** ** The driver: what one transaction, one batch and the loop do *)

Section RunFacts.

Variable get_all_transactions : string → list etherscan_tx.
Variable target_wallet : string.
Variable max_depth : Z.
Variable stack : nat.

(** The tree after the loop body: unchanged when [expand] was not called
    or failed, else with the neighbor added under the visited wallet. *)
Lemma visit_tree wallet depth tx q t r t' :
  visit target_wallet max_depth stack wallet depth tx q t = (r, t') →
  (t' = t ∧
   (lower (neighbor_address tx wallet) ∈ observed_wallets t ∨
    lower (neighbor_address tx wallet) = "")) ∨
  (t' = t ∧ (wallet ∉ observed_wallets t) ∧ r = Raise AssertionError) ∨
  (wallet ∈ observed_wallets t ∧
   (lower (neighbor_address tx wallet) ∉ observed_wallets t) ∧
   lower (neighbor_address tx wallet) ≠ "" ∧
   t' = expanded wallet (lower (neighbor_address tx wallet)) (txhash tx) t).
Proof.
  rewrite visit_eq. simpl. set (n := lower (neighbor_address tx wallet)).
  assert (Htail : ∀ t1,
    (if bool_decide (n = target_wallet) then
       match path_to_root stack n t1 with
       | (Ok (ws, hs), t2) => (Ok (inl (Path ws hs)), t2)
       | (Raise e, t2) => (Raise e, t2)
       end
     else (Ok (inr (enqueue max_depth depth n q)), t1)) = (r, t') → t' = t1).
  { intros t1. case_bool_decide.
    - pose proof (path_to_root_state stack n t1) as Hst.
      destruct (path_to_root stack n t1) as [[[ws hs]|e] t2]; simpl in Hst;
        by intros [= _ <-].
    - by intros [= _ <-]. }
  destruct (bool_decide (n ∉ observed_wallets t)
            && negb (bool_decide (n = ""))) eqn:Hb.
  - apply andb_true_iff in Hb as [Hnew Hne].
    apply bool_decide_eq_true_1 in Hnew.
    apply negb_true_iff, bool_decide_eq_false_1 in Hne.
    destruct (expand wallet n (txhash tx) t) as [r1 t1] eqn:Hex.
    apply expand_inv in Hex as [(Hw & _ & -> & ->)|([Hbad|Hbad] & -> & ->)].
    + intros H%Htail. right. right. done.
    + intros [= <- <-]. right. left. done.
    + done.
  - intros H%Htail. left. split; [done|].
    apply andb_false_iff in Hb as [Hb|Hb].
    + apply bool_decide_eq_false_1 in Hb. left.
      destruct (decide (n ∈ observed_wallets t)); [done|by destruct Hb].
    + apply negb_false_iff, bool_decide_eq_true_1 in Hb. by right.
Qed.

(** The loop goes on: the neighbor is not the target and the queue got
    the entry the depth test allows. *)
Lemma visit_continue wallet depth tx q t q' t' :
  visit target_wallet max_depth stack wallet depth tx q t = (Ok (inr q'), t') →
  lower (neighbor_address tx wallet) ≠ target_wallet ∧
  q' = enqueue max_depth depth (lower (neighbor_address tx wallet)) q.
Proof.
  rewrite visit_eq. simpl. set (n := lower (neighbor_address tx wallet)).
  destruct (if bool_decide (n ∉ observed_wallets t)
               && negb (bool_decide (n = ""))
            then expand wallet n (txhash tx) t else (Ok (), t))
    as [[[]|e] t1]; [|done].
  case_bool_decide.
  - by destruct (path_to_root stack n t1) as [[[ws hs]|e] t2].
  - by intros [= <- <-].
Qed.

(** The function returns: the neighbor is the target and the value is
    what [path_to_root] gives for it on the tree as it is left. *)
Lemma visit_return wallet depth tx q t v t' :
  visit target_wallet max_depth stack wallet depth tx q t = (Ok (inl v), t') →
  ∃ ws hs, v = Path ws hs ∧
    path_to_root stack target_wallet t' = (Ok (ws, hs), t').
Proof.
  rewrite visit_eq. simpl. set (n := lower (neighbor_address tx wallet)).
  destruct (if bool_decide (n ∉ observed_wallets t)
               && negb (bool_decide (n = ""))
            then expand wallet n (txhash tx) t else (Ok (), t))
    as [[[]|e] t1]; [|done].
  case_bool_decide as Hn; [|done]. rewrite Hn.
  pose proof (path_to_root_state stack target_wallet t1) as Hst.
  destruct (path_to_root stack target_wallet t1) as [[[ws hs]|e] t2] eqn:Hp;
    [|done].
  simpl in Hst. subst t2. intros [= <- <-]. by exists ws, hs.
Qed.

(** An exception of the loop body comes from [expand], called with a
    wallet that is not in the tree, or from [path_to_root]. *)
Lemma visit_raise wallet depth tx q t e t' :
  visit target_wallet max_depth stack wallet depth tx q t = (Raise e, t') →
  (e = AssertionError ∧ wallet ∉ observed_wallets t) ∨
  (lower (neighbor_address tx wallet) = target_wallet ∧
   (path_to_root stack target_wallet t').1 = Raise e).
Proof.
  rewrite visit_eq. simpl. set (n := lower (neighbor_address tx wallet)).
  assert (Htail : ∀ t1,
    (if bool_decide (n = target_wallet) then
       match path_to_root stack n t1 with
       | (Ok (ws, hs), t2) => (Ok (inl (Path ws hs)), t2)
       | (Raise e, t2) => (Raise e, t2)
       end
     else (Ok (inr (enqueue max_depth depth n q)), t1)) = (Raise e, t') →
    n = target_wallet ∧ (path_to_root stack target_wallet t').1 = Raise e).
  { intros t1. case_bool_decide as Hn; [|done]. rewrite Hn.
    pose proof (path_to_root_state stack target_wallet t1) as Hst.
    destruct (path_to_root stack target_wallet t1) as [[[ws hs]|e1] t2] eqn:Hp;
      [done|].
    simpl in Hst. subst t2. intros [= <- <-]. by rewrite Hp. }
  destruct (bool_decide (n ∉ observed_wallets t)
            && negb (bool_decide (n = ""))) eqn:Hb.
  - apply andb_true_iff in Hb as [Hnew _].
    apply bool_decide_eq_true_1 in Hnew.
    destruct (expand wallet n (txhash tx) t) as [r1 t1] eqn:Hex.
    apply expand_inv in Hex as [(Hw & _ & -> & ->)|([Hbad|Hbad] & -> & ->)].
    + intros H%Htail. by right.
    + intros [= <- <-]. by left.
    + done.
  - intros H%Htail. by right.
Qed.

(** A batch that lets the loop go on met the target in none of its
    transactions and added its entries at the end of the queue. *)
Lemma for_txs_continue wallet depth txs : ∀ q t q' t',
  for_txs target_wallet max_depth stack wallet depth txs q t
  = (Ok (inr q'), t') →
  Forall (λ tx, lower (neighbor_address tx wallet) ≠ target_wallet) txs ∧
  q' = q ++ batch_entries max_depth wallet depth txs.
Proof.
  unfold batch_entries.
  induction txs as [|tx txs IH]; intros q t q' t'.
  - intros [= <- <-]. split; [done|]. destruct (depth <? max_depth);
      by rewrite app_nil_r.
  - rewrite for_txs_cons.
    destruct (visit target_wallet max_depth stack wallet depth tx q t)
      as [[[v|q1]|e] t1] eqn:Hv; [done| |done].
    apply visit_continue in Hv as [Hne ->].
    intros [Hall ->]%IH. split; [by constructor|].
    unfold enqueue. destruct (depth <? max_depth); [|done].
    by rewrite <- app_assoc.
Qed.

Lemma for_txs_return wallet depth txs : ∀ q t v t',
  for_txs target_wallet max_depth stack wallet depth txs q t
  = (Ok (inl v), t') →
  ∃ ws hs, v = Path ws hs ∧
    path_to_root stack target_wallet t' = (Ok (ws, hs), t').
Proof.
  induction txs as [|tx txs IH]; intros q t v t'; [done|].
  rewrite for_txs_cons.
  destruct (visit target_wallet max_depth stack wallet depth tx q t)
    as [[[v1|q1]|e] t1] eqn:Hv; [|by apply IH|done].
  intros [= <- <-]. by apply visit_return in Hv.
Qed.

(** A returned path is what [path_to_root] gives for the target on the
    tree the run leaves. *)
Lemma while_queue_return steps : ∀ q t ws hs t',
  while_queue get_all_transactions target_wallet max_depth stack steps q t
  = (Ok (Some (Path ws hs)), t') →
  path_to_root stack target_wallet t' = (Ok (ws, hs), t').
Proof.
  induction steps as [|steps IH]; intros q t ws hs t';
    destruct q as [|[wallet depth] q]; try done.
  rewrite while_queue_S.
  destruct (for_txs target_wallet max_depth stack wallet depth
              (get_all_transactions wallet) q t) as [[[v|q1]|e] t1] eqn:Hf;
    [|by apply IH|done].
  intros [= -> <-]. apply for_txs_return in Hf as (ws' & hs' & [= <- <-] & Hp).
  done.
Qed.

(** Properties of the tree kept by every [expand] of the driver are kept
    by the run. *)
Section Preserved.

Variable P : transaction_tree → Prop.
Hypothesis P_step : ∀ t wallet tx,
  tx ∈ get_all_transactions wallet →
  wallet ∈ observed_wallets t →
  lower (neighbor_address tx wallet) ∉ observed_wallets t →
  lower (neighbor_address tx wallet) ≠ "" →
  P t →
  P (expanded wallet (lower (neighbor_address tx wallet)) (txhash tx) t).

Lemma for_txs_preserves wallet depth txs : ∀ q t r t',
  (∀ tx, tx ∈ txs → tx ∈ get_all_transactions wallet) →
  P t →
  for_txs target_wallet max_depth stack wallet depth txs q t = (r, t') →
  P t'.
Proof.
  induction txs as [|tx txs IH]; intros q t r t' Hin HP.
  - by intros [= _ <-].
  - rewrite for_txs_cons.
    destruct (visit target_wallet max_depth stack wallet depth tx q t)
      as [r1 t1] eqn:Hv.
    assert (HP1 : P t1).
    { apply visit_tree in Hv as [[-> _]|[(-> & _)|(Hw & Hn & Hne & ->)]];
        [done..|].
      apply P_step; auto. apply Hin. by left. }
    destruct r1 as [[v|q1]|e]; try by intros [= _ <-].
    apply IH; [|done]. intros tx' Htx. apply Hin. by right.
Qed.

Lemma while_queue_preserves steps : ∀ q t r t',
  P t →
  while_queue get_all_transactions target_wallet max_depth stack steps q t
  = (r, t') →
  P t'.
Proof.
  induction steps as [|steps IH]; intros q t r t' HP;
    destruct q as [|[wallet depth] q]; try by intros [= _ <-].
  rewrite while_queue_S.
  destruct (for_txs target_wallet max_depth stack wallet depth
              (get_all_transactions wallet) q t) as [r1 t1] eqn:Hf.
  apply for_txs_preserves in Hf; [|done..].
  destruct r1 as [[v|q1]|e]; try by intros [= _ <-].
  by apply IH.
Qed.

End Preserved.

End RunFacts.

(** ** The driver: the tree and the path of a run *)

(** The tree of a run is reachable and rooted at the lower-cased
    source. *)
Lemma run_reachable
    steps stack get_all_transactions source_wallet target_wallet max_depth :
  let t := (shortest_path steps stack get_all_transactions
              source_wallet target_wallet max_depth).2 in
  reachable t ∧ root_wallet t = lower source_wallet.
Proof.
  unfold shortest_path.
  destruct (while_queue _ _ _ _ _ _ _) as [r t] eqn:Hrun. simpl.
  apply (while_queue_preserves _ _ _ _
           (λ t, reachable t ∧ root_wallet t = lower source_wallet)) in Hrun.
  - done.
  - intros t0 wallet tx _ Hw Hn _ [Hr Hroot]. split; [|done].
    apply (reachable_expand t0 wallet (lower (neighbor_address tx wallet))
             (txhash tx)); [done|].
    by apply expand_ok.
  - split; [apply reachable_init|done].
Qed.

(** X6: the tree a run of [shortest_path] leaves, whether the run
    returned, raised or was cut short, is one that [__init__] on the
    lower-cased source and successful [expand] calls build. *)
Theorem X6_run_tree_reachable
    steps stack get_all_transactions source_wallet target_wallet max_depth :
  let t := (shortest_path steps stack get_all_transactions
              source_wallet target_wallet max_depth).2 in
  reachable t ∧ root_wallet t = lower source_wallet.
Proof. apply run_reachable. Qed.

(** X7: a path returned by [shortest_path] runs from the lower-cased
    target to the lower-cased source, has one wallet more than hashes,
    repeats no wallet, and every hash is that of a transaction the data
    source reports for the next wallet of the path, whose other side is the
    wallet at that position. *)
Theorem X7_returned_path_is_justified
    steps stack get_all_transactions source_wallet target_wallet max_depth
    wallets txs :
  (shortest_path steps stack get_all_transactions
     source_wallet target_wallet max_depth).1 = Ok (Some (Path wallets txs)) →
  head wallets = Some (lower target_wallet) ∧
  last wallets = Some (lower source_wallet) ∧
  length wallets = S (length txs) ∧
  NoDup wallets ∧
  ∀ i h, txs !! i = Some h →
    ∃ a b tx, wallets !! i = Some a ∧ wallets !! S i = Some b ∧
      tx ∈ get_all_transactions b ∧ txhash tx = h ∧
      lower (neighbor_address tx b) = a.
Proof.
  intros Hres.
  pose proof (run_reachable steps stack get_all_transactions
                source_wallet target_wallet max_depth) as [Hr Hroot].
  unfold shortest_path in *.
  destruct (while_queue _ _ _ _ _ _ _) as [r t] eqn:Hrun. simpl in *. subst r.
  pose proof Hrun as Hjust.
  apply (while_queue_preserves _ _ _ _ (justified get_all_transactions))
    in Hjust.
  - apply while_queue_return, path_to_root_chain in Hrun.
    apply reachable_inv in Hr.
    assert (Hobs : lower target_wallet ∈ observed_wallets t).
    { apply (chain_observed _ _ _ _ Hrun).
      apply chain_head in Hrun. destruct wallets; simplify_eq/=. by left. }
    destruct (inv_walk t Hr _ Hobs) as (ws' & hs' & Hch' & Hnd).
    destruct (chain_functional _ _ _ _ _ _ Hrun Hch') as [<- <-].
    split; [by apply chain_head in Hrun|].
    split; [rewrite <- Hroot; by apply chain_last in Hrun|].
    split; [by apply chain_length in Hrun|]. split; [done|].
    intros i h Hi.
    destruct (chain_links _ _ _ _ Hrun i h Hi) as (a & b & Ha & Hb & Hl).
    destruct (Hjust _ _ _ Hl) as (tx & Htx & Hh & Hnb).
    by exists a, b, tx.
  - intros t0 wallet tx Htx Hw Hn _ Hj c p h. simpl.
    destruct (decide (lower (neighbor_address tx wallet) = c)) as [<-|Hne].
    + rewrite lookup_insert_eq. intros [= <- <-]. by exists tx.
    + rewrite lookup_insert_ne by done. apply Hj.
  - intros c p h Hl. simpl in Hl. by rewrite lookup_empty in Hl.
Qed.

Lemma X7_returned_path_is_justified_witness :
  head ["0xb"; "0xc"; "0xa"] = Some (lower "0xB") ∧
  last ["0xb"; "0xc"; "0xa"] = Some (lower "0xA") ∧
  length ["0xb"; "0xc"; "0xa"] = S (length ["0x3"; "0x2"]) ∧
  NoDup ["0xb"; "0xc"; "0xa"] ∧
  ∀ i h, ["0x3"; "0x2"] !! i = Some h →
    ∃ a b tx, ["0xb"; "0xc"; "0xa"] !! i = Some a ∧
      ["0xb"; "0xc"; "0xa"] !! S i = Some b ∧
      tx ∈ two_hop b ∧ txhash tx = h ∧
      lower (neighbor_address tx b) = a.
Proof.
  apply (X7_returned_path_is_justified 2 2 two_hop "0xA" "0xB" 2).
  vm_compute. reflexivity.
Defined.

(** With source and target the same, a returned path is the source
    alone. *)
Lemma run_same_source
    steps stack get_all_transactions source_wallet target_wallet max_depth
    wallets txs :
  lower source_wallet = lower target_wallet →
  (shortest_path steps stack get_all_transactions
     source_wallet target_wallet max_depth).1 = Ok (Some (Path wallets txs)) →
  wallets = [lower source_wallet] ∧ txs = [].
Proof.
  intros Heq Hres.
  pose proof (run_reachable steps stack get_all_transactions
                source_wallet target_wallet max_depth) as [_ Hroot].
  unfold shortest_path in *.
  destruct (while_queue _ _ _ _ _ _ _) as [r t] eqn:Hrun. simpl in *. subst r.
  apply while_queue_return, path_to_root_chain in Hrun.
  rewrite <- Heq, <- Hroot in Hrun. rewrite <- Hroot.
  inversion Hrun; [done|congruence].
Qed.

(** X8: when source and target are the same wallet (up to case), the
    only path [shortest_path] can return is the source alone with no
    hash. *)
Theorem X8_same_source_and_target
    steps stack get_all_transactions source_wallet target_wallet max_depth
    wallets txs :
  lower source_wallet = lower target_wallet →
  (shortest_path steps stack get_all_transactions
     source_wallet target_wallet max_depth).1 = Ok (Some (Path wallets txs)) →
  wallets = [lower source_wallet] ∧ txs = [].
Proof. apply run_same_source. Qed.

(** A self-transaction of [0xa]. *)
Lemma X8_same_source_and_target_witness :
  ["0xa"] = [lower "0xA"] ∧ ([] : list string) = [].
Proof.
  apply (X8_same_source_and_target 1 1
           (λ _, [ {| from_address := "0xA"; to_address := "0xa";
                      txhash := "0x7" |} ]) "0xA" "0xa" 0).
  - reflexivity.
  - vm_compute. reflexivity.
Defined.

(** The empty string never enters a tree whose root is not empty. *)
Lemma run_empty_unobserved
    steps stack get_all_transactions source_wallet target_wallet max_depth :
  lower source_wallet ≠ "" →
  "" ∉ observed_wallets
         (shortest_path steps stack get_all_transactions
            source_wallet target_wallet max_depth).2.
Proof.
  intros Hsrc. unfold shortest_path.
  destruct (while_queue _ _ _ _ _ _ _) as [r t] eqn:Hrun. simpl.
  apply (while_queue_preserves _ _ _ _ (λ t, "" ∉ observed_wallets t)) in Hrun.
  - done.
  - intros t0 wallet tx _ _ _ Hne Hno. simpl.
    intros [H|H]%elem_of_union; [done|].
    apply elem_of_singleton in H. by apply Hne.
  - simpl. intros H%elem_of_singleton. by apply Hsrc.
Qed.

(** X9: a search for the empty address from a non-empty source never
    returns a path. *)
Theorem X9_empty_target_never_found
    steps stack get_all_transactions source_wallet target_wallet max_depth
    wallets txs :
  lower target_wallet = "" →
  lower source_wallet ≠ "" →
  (shortest_path steps stack get_all_transactions
     source_wallet target_wallet max_depth).1 ≠ Ok (Some (Path wallets txs)).
Proof.
  intros Htgt Hsrc Hres.
  pose proof (run_empty_unobserved steps stack get_all_transactions
                source_wallet target_wallet max_depth Hsrc) as Hno.
  unfold shortest_path in *.
  destruct (while_queue _ _ _ _ _ _ _) as [r t] eqn:Hrun. simpl in *. subst r.
  apply while_queue_return in Hrun.
  rewrite Htgt, path_to_root_unobserved in Hrun by done. done.
Qed.

Lemma X9_empty_target_never_found_witness :
  (shortest_path 5 5 creation_source "0xA" "" 1).1
  ≠ Ok (Some (Path [""; "0xa"] ["0x9"])).
Proof.
  apply (X9_empty_target_never_found 5 5 creation_source "0xA" "" 1).
  - reflexivity.
  - discriminate.
Defined.

(** X10: every wallet of the tree of a run, hence every wallet of a
    returned path, is in lower case. *)
Theorem X10_wallets_are_lower_case
    steps stack get_all_transactions source_wallet target_wallet max_depth w :
  w ∈ observed_wallets
        (shortest_path steps stack get_all_transactions
           source_wallet target_wallet max_depth).2 →
  lower w = w.
Proof.
  unfold shortest_path.
  destruct (while_queue _ _ _ _ _ _ _) as [r t] eqn:Hrun. simpl.
  revert w.
  eapply (while_queue_preserves _ _ _ _
            (λ t, ∀ w, w ∈ observed_wallets t → lower w = w)); [| |exact Hrun].
  - intros t0 wallet tx _ _ _ _ Hlow x. simpl.
    intros [H|H]%elem_of_union; [by apply Hlow|].
    apply elem_of_singleton in H as ->. apply lower_idemp.
  - intros x. simpl. intros ->%elem_of_singleton. apply lower_idemp.
Qed.

Lemma X10_wallets_are_lower_case_witness : lower "0xc" = "0xc".
Proof.
  apply (X10_wallets_are_lower_case 2 2 two_hop "0xA" "0xB" 2 "0xc").
  apply (bool_decide_unpack _). vm_compute. exact I.
Defined.

(** ** The driver: breadth-first order *)

Lemma loop_inv_init max_depth src :
  0 ≤ max_depth →
  loop_inv max_depth (transaction_tree_init src) [(src, 0)].
Proof.
  intros Hmd.
  assert (Hroot : depth_le (transaction_tree_init src) src 0).
  { exists [src], []. split; [|simpl; lia].
    apply (chain_root (transaction_tree_init src)). simpl.
    by apply elem_of_singleton. }
  split; [apply tree_inv_init|]. exists 0. split; [lia|]. split.
  - intros n Hn. simpl in Hn. apply elem_of_singleton in Hn as ->.
    by apply depth_le_mono with (k := 0).
  - split.
    + exists [(src, 0)], []. repeat split; auto.
    + apply Forall_singleton. split; [simpl; lia|]. split; [done|].
      simpl. intros Hout. exfalso. apply Hout. by apply elem_of_singleton.
Qed.

(** X11: with [0 <= max_depth], a returned path has at most
    [max_depth + 1] hashes. *)
Theorem X11_returned_path_hops
    steps stack get_all_transactions source_wallet target_wallet max_depth
    wallets txs :
  0 ≤ max_depth →
  (shortest_path steps stack get_all_transactions
     source_wallet target_wallet max_depth).1 = Ok (Some (Path wallets txs)) →
  Z.of_nat (length txs) ≤ max_depth + 1.
Proof.
  intros Hmd Hres. unfold shortest_path in *.
  destruct (while_queue _ _ _ _ _ _ _) as [r t] eqn:Hrun. simpl in *. subst r.
  pose proof Hrun as Hret.
  apply while_queue_return, path_to_root_chain in Hret.
  apply while_queue_inv in Hrun as [_ Hall]; [|by apply loop_inv_init].
  assert (Hobs : lower target_wallet ∈ observed_wallets t).
  { apply (chain_observed _ _ _ _ Hret).
    apply chain_head in Hret. destruct wallets; simplify_eq/=. by left. }
  destruct (Hall _ Hobs) as (ws & hs & Hch & Hlen).
  by destruct (chain_functional _ _ _ _ _ _ Hret Hch) as [<- <-].
Qed.

Lemma X11_returned_path_hops_witness :
  Z.of_nat (length ["0x3"; "0x2"]) ≤ 1 + 1.
Proof.
  apply (X11_returned_path_hops 2 2 two_hop "0xA" "0xB" 1
           ["0xb"; "0xc"; "0xa"]); [lia|].
  vm_compute. reflexivity.
Defined.

Lemma route_S_inv client src v k :
  route client src v (S k) → ∃ u, route client src u k ∧ hop client u v.
Proof. inversion 1; subst; eauto. Qed.

Section BreadthFirst.

Variable get_all_transactions : string → list etherscan_tx.
Variable source target_wallet : string.
Variable max_depth : Z.
Variable stack : nat.

Lemma frontier_init :
  frontier_inv get_all_transactions source target_wallet max_depth
    [(source, 0)].
Proof.
  exists (λ x, x = (source, 0)). split; [done|].
  intros v e ->. left. by left.
Qed.

(** A batch gone through to its end settles its entry. *)
Lemma frontier_step wallet depth q t q' t' :
  frontier_inv get_all_transactions source target_wallet max_depth
    ((wallet, depth) :: q) →
  for_txs target_wallet max_depth stack wallet depth
    (get_all_transactions wallet) q t = (Ok (inr q'), t') →
  frontier_inv get_all_transactions source target_wallet max_depth q'.
Proof.
  intros (E & Hsrc & HE) Hfor.
  apply for_txs_continue in Hfor as [Hall ->].
  set (new := batch_entries max_depth wallet depth (get_all_transactions wallet)).
  exists (λ x, E x ∨ x ∈ new). split; [by left|].
  assert (Hmono : ∀ v e,
    settled get_all_transactions target_wallet max_depth E v e →
    settled get_all_transactions target_wallet max_depth
      (λ x, E x ∨ x ∈ new) v e).
  { intros v e Hs tx Htx. destruct (Hs tx Htx) as [Hne Hen].
    split; [done|]. intros He. left. by apply Hen. }
  intros v e [Hin|Hin].
  - destruct (HE v e Hin) as [Hq|Hs]; [|right; by apply Hmono].
    apply elem_of_cons in Hq as [[= -> ->]|Hq].
    + right. intros tx Htx. split.
      * rewrite Forall_forall in Hall. by apply Hall.
      * intros Hd. right. unfold new, batch_entries.
        apply Z.ltb_lt in Hd. rewrite Hd.
        apply list_elem_of_fmap. by exists tx.
    + left. apply elem_of_app. by left.
  - left. apply elem_of_app. by right.
Qed.

(** A wallet reached in [k] hops has an entry of depth [k], as long as
    [k] is within the depth bound and below the depths still queued. *)
Lemma route_enqueued (E : string * Z → Prop) (q : list (string * Z)) (D : Z) :
  E (source, 0) →
  (∀ v e, E (v, e) → (v, e) ∈ q ∨
     settled get_all_transactions target_wallet max_depth E v e) →
  (∀ x, x ∈ q → D ≤ x.2) →
  ∀ v k, route get_all_transactions source v k →
    Z.of_nat k ≤ D → Z.of_nat k ≤ max_depth →
    E (v, Z.of_nat k).
Proof.
  intros Hsrc HE Hq v k. induction 1 as [|v n k Hr IH (tx & Htx & Hnb)];
    intros HD Hmd; [done|].
  destruct (HE v (Z.of_nat k)) as [Hin|Hs]; [apply IH; lia| |].
  - apply Hq in Hin. simpl in Hin. lia.
  - destruct (Hs tx Htx) as [_ Hen]. rewrite Hnb in Hen.
    replace (Z.of_nat (S k)) with (Z.of_nat k + 1) by lia. apply Hen. lia.
Qed.

(** No route with [k + 1] hops ends in the target when the entries of
    depth [k] are settled. *)
Lemma route_not_target q D k :
  frontier_inv get_all_transactions source target_wallet max_depth q →
  (∀ x, x ∈ q → D ≤ x.2) →
  route get_all_transactions source target_wallet (S k) →
  Z.of_nat k < D → Z.of_nat k ≤ max_depth →
  False.
Proof.
  intros (E & Hsrc & HE) Hq Hr HD Hmd.
  apply route_S_inv in Hr as (v & Hr' & tx & Htx & Hnb).
  pose proof (route_enqueued E q D Hsrc HE Hq v k Hr' ltac:(lia) Hmd) as Hin.
  destruct (HE _ _ Hin) as [Hin'|Hs].
  - apply Hq in Hin'. simpl in Hin'. lia.
  - by destruct (Hs tx Htx) as [Hne _].
Qed.

Lemma while_queue_optimal steps : ∀ q t wallets txs t',
  loop_inv max_depth t q →
  frontier_inv get_all_transactions source target_wallet max_depth q →
  while_queue get_all_transactions target_wallet max_depth stack steps q t
  = (Ok (Some (Path wallets txs)), t') →
  ∀ k, route get_all_transactions source target_wallet (S k) →
    (length txs ≤ S k)%nat.
Proof.
  induction steps as [|steps IH]; intros q t wallets txs t' Hinv Hfr;
    destruct q as [|[wallet e] q]; try done.
  rewrite while_queue_S.
  pose proof Hinv as Hdeq. apply loop_inv_dequeue in Hdeq as [Hv Hq].
  destruct (for_txs target_wallet max_depth stack wallet e
              (get_all_transactions wallet) q t) as [r1 t1] eqn:Hfor.
  destruct (for_txs_inv _ _ _ _ _ _ _ _ _ _ Hv Hq Hfor) as [Hv1 Hq1].
  destruct r1 as [[v|q1]|err]; [| |done].
  - intros [= -> <-] k Hroute.
    apply for_txs_return in Hfor as (ws & hs & [= <- <-] & Hp).
    apply path_to_root_chain in Hp.
    assert (Hobs : target_wallet ∈ observed_wallets t1).
    { apply (chain_observed _ _ _ _ Hp).
      apply chain_head in Hp. destruct wallets; simplify_eq/=. by left. }
    destruct (vis_all _ _ _ _ Hv1 _ Hobs) as (ws' & hs' & Hch & Hlen).
    destruct (chain_functional _ _ _ _ _ _ Hp Hch) as [<- <-].
    destruct (decide (Z.of_nat k < e)) as [Hlt|Hge]; [|lia].
    exfalso. apply (route_not_target ((wallet, e) :: q) e k); try done.
    + intros x [->|Hx]%elem_of_cons; [simpl; lia|].
      destruct Hq as [(qa & qb & -> & Ha & Hb) _].
      rewrite Forall_forall in Ha. rewrite Forall_forall in Hb.
      apply elem_of_app in Hx as [Hx|Hx];
        [rewrite (Ha _ Hx)|rewrite (Hb _ Hx)]; lia.
    + pose proof (vis_depth _ _ _ _ Hv). lia.
  - apply IH.
    + eapply visiting_loop_inv; eauto.
    + by apply (frontier_step wallet e q t q1 t1).
Qed.

Lemma while_queue_false steps : ∀ q t t',
  frontier_inv get_all_transactions source target_wallet max_depth q →
  while_queue get_all_transactions target_wallet max_depth stack steps q t
  = (Ok (Some PyFalse), t') →
  frontier_inv get_all_transactions source target_wallet max_depth [].
Proof.
  induction steps as [|steps IH]; intros q t t' Hfr;
    destruct q as [|[wallet e] q]; try done.
  rewrite while_queue_S.
  destruct (for_txs target_wallet max_depth stack wallet e
              (get_all_transactions wallet) q t) as [[[v|q1]|err] t1] eqn:Hfor;
    [| |done].
  - intros [= -> <-]. by apply for_txs_return in Hfor as (ws & hs & [=] & _).
  - apply IH. by apply (frontier_step wallet e q t q1 t1).
Qed.

End BreadthFirst.

(** X12: the returned path is a shortest one.  With [0 <= max_depth], if
    the call returns a path and the target can be reached from the source
    in [k] hops, each hop being to the lower-cased neighbor in a
    transaction the data source reports for the wallet, then the path has
    at most [k] hashes. *)
Theorem X12_returned_path_is_shortest
    steps stack get_all_transactions source_wallet target_wallet max_depth
    wallets txs k :
  0 ≤ max_depth →
  (shortest_path steps stack get_all_transactions
     source_wallet target_wallet max_depth).1 = Ok (Some (Path wallets txs)) →
  route get_all_transactions (lower source_wallet) (lower target_wallet) k →
  (length txs ≤ k)%nat.
Proof.
  intros Hmd Hres Hroute. destruct k as [|k].
  - inversion Hroute as [Heq|].
    destruct (run_same_source _ _ _ _ _ _ _ _ Heq Hres) as [_ ->].
    done.
  - unfold shortest_path in Hres.
    destruct (while_queue _ _ _ _ _ _ _) as [r t] eqn:Hrun. simpl in *. subst r.
    eapply (while_queue_optimal get_all_transactions (lower source_wallet));
      [by apply loop_inv_init|apply frontier_init|exact Hrun|exact Hroute].
Qed.

Lemma two_hop_route : route two_hop (lower "0xA") (lower "0xB") 2.
Proof.
  apply (route_hop two_hop "0xa" "0xc" "0xb" 1).
  - apply (route_hop two_hop "0xa" "0xa" "0xc" 0); [apply route_here|].
    exists tx_AC. split; [by left|reflexivity].
  - exists tx_CB. split; [by left|reflexivity].
Defined.

Lemma X12_returned_path_is_shortest_witness :
  (length ["0x3"; "0x2"] ≤ 2)%nat.
Proof.
  apply (X12_returned_path_is_shortest 2 2 two_hop "0xA" "0xB" 1
           ["0xb"; "0xc"; "0xa"] ["0x3"; "0x2"] 2).
  - lia.
  - vm_compute. reflexivity.
  - exact two_hop_route.
Defined.

(** X13: [False] means out of reach.  If the call returns [False], the
    target cannot be reached from the source in [k + 1] hops for any
    [k <= max_depth]. *)
Theorem X13_false_means_out_of_reach
    steps stack get_all_transactions source_wallet target_wallet max_depth k :
  (shortest_path steps stack get_all_transactions
     source_wallet target_wallet max_depth).1 = Ok (Some PyFalse) →
  Z.of_nat k ≤ max_depth →
  ¬ route get_all_transactions (lower source_wallet) (lower target_wallet) (S k).
Proof.
  intros Hres Hk Hroute. unfold shortest_path in Hres.
  destruct (while_queue _ _ _ _ _ _ _) as [r t] eqn:Hrun. simpl in *. subst r.
  apply (while_queue_false get_all_transactions (lower source_wallet)) in Hrun;
    [|apply frontier_init].
  apply (route_not_target get_all_transactions (lower source_wallet)
           (lower target_wallet) max_depth [] (Z.of_nat k + 1) k);
    try done; [|lia].
  intros x Hx. by apply elem_of_nil in Hx.
Qed.

Lemma X13_false_means_out_of_reach_witness :
  ¬ route two_hop (lower "0xA") (lower "0xB") 1.
Proof.
  apply (X13_false_means_out_of_reach 2 2 two_hop "0xA" "0xB" 0 0).
  - vm_compute. reflexivity.
  - lia.
Defined.

(** ** The driver: depth bound zero, termination, exceptions *)

(** X14: with [max_depth <= 0] the loop ends with its first iteration,
    and the result depends on the data source only through the
    transactions of the source wallet. *)
Theorem X14_depth_zero_reads_source_only
    steps1 steps2 stack client1 client2 source_wallet target_wallet max_depth :
  max_depth ≤ 0 →
  (1 ≤ steps1)%nat →
  (1 ≤ steps2)%nat →
  client1 (lower source_wallet) = client2 (lower source_wallet) →
  shortest_path steps1 stack client1 source_wallet target_wallet max_depth
  = shortest_path steps2 stack client2 source_wallet target_wallet max_depth ∧
  (shortest_path steps1 stack client1 source_wallet target_wallet max_depth).1
  ≠ Ok None.
Proof.
  intros Hmd H1 H2 Heq.
  destruct steps1 as [|steps1]; [lia|]. destruct steps2 as [|steps2]; [lia|].
  unfold shortest_path. rewrite !while_queue_S, <- Heq.
  destruct (for_txs _ _ _ _ _ _ _ _) as [[[v|q1]|e] t1] eqn:Hfor; try done.
  apply for_txs_continue in Hfor as [_ ->]. unfold batch_entries.
  replace (0 <? max_depth) with false by (symmetry; apply Z.ltb_ge; lia).
  by destruct steps1, steps2.
Qed.

Lemma X14_depth_zero_reads_source_only_witness :
  shortest_path 1 3 two_hop "0xA" "0xB" 0
  = shortest_path 7 3 (λ _, [tx_AC]) "0xA" "0xB" 0 ∧
  (shortest_path 1 3 two_hop "0xA" "0xB" 0).1 ≠ Ok None.
Proof.
  apply X14_depth_zero_reads_source_only; [lia | lia | lia | reflexivity].
Defined.

Section Termination.

Variable get_all_transactions : string → list etherscan_tx.
Variable target_wallet : string.
Variable max_depth : Z.
Variable stack : nat.

Lemma finishes_nil t :
  finishes get_all_transactions target_wallet max_depth stack [] t.
Proof. exists 0%nat. intros steps' _. by destruct steps'. Qed.

(** The loop ends on a queue if it ends on every queue the first batch
    can leave. *)
Lemma finishes_cons wallet depth q t :
  (∀ t1, finishes get_all_transactions target_wallet max_depth stack
           (q ++ batch_entries max_depth wallet depth
                   (get_all_transactions wallet)) t1) →
  finishes get_all_transactions target_wallet max_depth stack
    ((wallet, depth) :: q) t.
Proof.
  intros Hrest.
  destruct (for_txs target_wallet max_depth stack wallet depth
              (get_all_transactions wallet) q t) as [r1 t1] eqn:Hfor.
  destruct r1 as [[v|q1]|e].
  - exists 1%nat. intros [|steps'] Hle; [lia|].
    by rewrite while_queue_S, Hfor.
  - pose proof Hfor as Hq. apply for_txs_continue in Hq as [_ ->].
    destruct (Hrest t1) as [steps Hsteps].
    exists (S steps). intros [|steps'] Hle; [lia|].
    rewrite while_queue_S, Hfor. apply Hsteps. lia.
  - exists 1%nat. intros [|steps'] Hle; [lia|].
    by rewrite while_queue_S, Hfor.
Qed.

(** Entries at least [max_depth - k] deep: the loop ends. *)
Lemma finishes_layers (k : nat) : ∀ qa qb t,
  Forall (λ x, max_depth - Z.of_nat k ≤ x.2) qa →
  Forall (λ x, max_depth - Z.of_nat k < x.2) qb →
  finishes get_all_transactions target_wallet max_depth stack (qa ++ qb) t.
Proof.
  induction k as [|k IHk].
  - assert (Hbase : ∀ q t, Forall (λ x, max_depth ≤ x.2) q →
              finishes get_all_transactions target_wallet max_depth stack q t).
    { induction q as [|[wallet depth] q IH]; intros t Hq; [apply finishes_nil|].
      apply Forall_cons in Hq as [Hd Hq]. simpl in Hd.
      apply finishes_cons. intros t1. unfold batch_entries.
      replace (depth <? max_depth) with false by (symmetry; apply Z.ltb_ge; lia).
      rewrite app_nil_r. by apply IH. }
    intros qa qb t Ha Hb. apply Hbase. apply Forall_app. split.
    + eapply Forall_impl; [exact Ha|]. simpl. intros; lia.
    + eapply Forall_impl; [exact Hb|]. simpl. intros; lia.
  - induction qa as [|[wallet depth] qa IHqa]; intros qb t Ha Hb.
    + simpl. rewrite <- (app_nil_r qb). apply IHk; [|done].
      eapply Forall_impl; [exact Hb|]. simpl. intros; lia.
    + apply Forall_cons in Ha as [Hd Ha]. simpl in Hd.
      simpl. apply finishes_cons. intros t1. rewrite <- app_assoc.
      apply IHqa; [done|]. apply Forall_app. split; [done|].
      unfold batch_entries. destruct (depth <? max_depth); [|done].
      apply Forall_fmap, Forall_forall. intros tx _. simpl. lia.
Qed.

End Termination.

(** X15: [shortest_path] terminates.  For every data source, source,
    target and depth bound there is a number of iterations of the [while]
    loop from which on the call has a result: a path, [False] or an
    exception. *)
Theorem X15_shortest_path_terminates
    stack get_all_transactions source_wallet target_wallet max_depth :
  ∃ steps, ∀ steps', (steps ≤ steps')%nat →
    (shortest_path steps' stack get_all_transactions
       source_wallet target_wallet max_depth).1 ≠ Ok None.
Proof.
  apply (finishes_layers get_all_transactions (lower target_wallet) max_depth
           stack (Z.to_nat max_depth) [(lower source_wallet, 0)] []).
  - apply Forall_singleton. simpl. lia.
  - done.
Qed.

(** On a reachable tree [path_to_root] raises no [KeyError]. *)
Lemma path_to_root_raise t stack w e :
  reachable t →
  (path_to_root stack w t).1 = Raise e →
  (e = AssertionError ∧ w ∉ observed_wallets t) ∨
  (e = RecursionError ∧ w ∈ observed_wallets t).
Proof.
  intros Hr Hres. destruct (decide (w ∈ observed_wallets t)) as [Hw|Hw].
  - destruct (inv_walk t (reachable_inv _ Hr) w Hw) as (ws & hs & Hch & _).
    destruct (chain_path_to_root_any _ _ _ _ Hch stack) as [E|E];
      rewrite E in Hres; simplify_eq/=. by right.
  - rewrite path_to_root_unobserved in Hres by done. simplify_eq/=. by left.
Qed.

Section Exceptions.

Variable get_all_transactions : string → list etherscan_tx.
Variable target_wallet : string.
Variable max_depth : Z.
Variable stack : nat.

Lemma for_txs_raise wallet depth txs : ∀ q t e t',
  for_txs target_wallet max_depth stack wallet depth txs q t = (Raise e, t') →
  e = AssertionError ∨ (path_to_root stack target_wallet t').1 = Raise e.
Proof.
  induction txs as [|tx txs IH]; intros q t e t'; [done|].
  rewrite for_txs_cons.
  destruct (visit target_wallet max_depth stack wallet depth tx q t)
    as [[[v|q1]|e1] t1] eqn:Hv; [done|by apply IH|].
  intros [= <- <-]. apply visit_raise in Hv as [[-> _]|[_ Hp]]; auto.
Qed.

Lemma while_queue_raise steps : ∀ q t e t',
  while_queue get_all_transactions target_wallet max_depth stack steps q t
  = (Raise e, t') →
  e = AssertionError ∨ (path_to_root stack target_wallet t').1 = Raise e.
Proof.
  induction steps as [|steps IH]; intros q t e t';
    destruct q as [|[wallet depth] q]; try done.
  rewrite while_queue_S.
  destruct (for_txs target_wallet max_depth stack wallet depth
              (get_all_transactions wallet) q t) as [[[v|q1]|e1] t1] eqn:Hf;
    [done|by apply IH|].
  intros [= <- <-]. by apply for_txs_raise in Hf.
Qed.

Hypothesis Hclean : clean get_all_transactions.

Lemma visit_clean wallet depth tx q t r t' :
  tx ∈ get_all_transactions wallet →
  reachable t →
  wallet ∈ observed_wallets t →
  Forall (λ x, x.1 ∈ observed_wallets t) q →
  visit target_wallet max_depth stack wallet depth tx q t = (r, t') →
  reachable t' ∧
  wallet ∈ observed_wallets t' ∧
  (∀ e, r = Raise e → e = RecursionError) ∧
  (∀ q', r = Ok (inr q') → Forall (λ x, x.1 ∈ observed_wallets t') q').
Proof.
  intros Htx Hr Hw Hq Hv.
  pose proof (Hclean _ _ Htx) as Hne.
  set (n := lower (neighbor_address tx wallet)) in *.
  assert (reachable t' ∧ observed_wallets t ⊆ observed_wallets t' ∧
          n ∈ observed_wallets t') as (Hr' & Hsub & Hn).
  { pose proof Hv as Ht.
    apply visit_tree in Ht as [[-> [Hn|Hn]]|[(-> & Hbad & _)|(_ & Hn & _ & ->)]];
      try done.
    split; [|split].
    - apply (reachable_expand t wallet n (txhash tx)); [done|].
      by apply expand_ok.
    - intros x Hx. simpl. apply elem_of_union. by left.
    - simpl. in_observed. }
  split; [done|]. split; [by apply Hsub|]. split.
  - intros e ->. apply visit_raise in Hv as [[_ Hbad]|[Htgt Hp]]; [done|].
    apply path_to_root_raise in Hp as [[_ Hno]|[-> _]]; [|done..].
    fold n in Htgt. rewrite <- Htgt in Hno. done.
  - intros q' ->. apply visit_continue in Hv as [_ ->]. fold n.
    unfold enqueue. destruct (depth <? max_depth).
    + apply Forall_app. split.
      * eapply Forall_impl; [exact Hq|]. intros x Hx. by apply Hsub.
      * by apply Forall_singleton.
    + eapply Forall_impl; [exact Hq|]. intros x Hx. by apply Hsub.
Qed.

Lemma for_txs_clean wallet depth txs : ∀ q t r t',
  (∀ tx, tx ∈ txs → tx ∈ get_all_transactions wallet) →
  reachable t →
  wallet ∈ observed_wallets t →
  Forall (λ x, x.1 ∈ observed_wallets t) q →
  for_txs target_wallet max_depth stack wallet depth txs q t = (r, t') →
  reachable t' ∧
  (∀ e, r = Raise e → e = RecursionError) ∧
  (∀ q', r = Ok (inr q') → Forall (λ x, x.1 ∈ observed_wallets t') q').
Proof.
  induction txs as [|tx txs IH]; intros q t r t' Hin Hr Hw Hq.
  - intros [= <- <-]. split; [done|]. split; [done|]. by intros q' [= <-].
  - rewrite for_txs_cons.
    destruct (visit target_wallet max_depth stack wallet depth tx q t)
      as [r1 t1] eqn:Hv.
    apply visit_clean in Hv as (Hr1 & Hw1 & He1 & Hq1);
      [|apply Hin; by left|done..].
    destruct r1 as [[v|q1]|e].
    + intros [= <- <-]. split; [done|]. split; done.
    + apply IH; auto. intros tx' Htx'. apply Hin. by right.
    + intros [= <- <-]. split; [done|]. split; [|done].
      intros e' [= <-]. by apply He1.
Qed.

Lemma while_queue_clean steps : ∀ q t e t',
  reachable t →
  Forall (λ x, x.1 ∈ observed_wallets t) q →
  while_queue get_all_transactions target_wallet max_depth stack steps q t
  = (Raise e, t') →
  e = RecursionError.
Proof.
  induction steps as [|steps IH]; intros q t e t' Hr Hq;
    destruct q as [|[wallet depth] q]; try done.
  rewrite while_queue_S.
  apply Forall_cons in Hq as [Hw Hq]. simpl in Hw.
  destruct (for_txs target_wallet max_depth stack wallet depth
              (get_all_transactions wallet) q t) as [r1 t1] eqn:Hf.
  apply for_txs_clean in Hf as (Hr1 & He1 & Hq1); [|done..].
  destruct r1 as [[v|q1]|e1]; [done| |].
  - apply IH; auto.
  - intros [= <- <-]. by apply He1.
Qed.

End Exceptions.

(** X16: when no transaction of the data source has an empty
    counterpart, the only exception a call can raise is [RecursionError],
    and it raises none when [0 <= max_depth] and the stack allows
    [max_depth + 1] nested calls of [path_to_root]. *)
Theorem X16_no_exception_on_clean_data
    steps stack get_all_transactions source_wallet target_wallet max_depth e :
  clean get_all_transactions →
  (shortest_path steps stack get_all_transactions
     source_wallet target_wallet max_depth).1 = Raise e →
  e = RecursionError ∧ ¬ (0 ≤ max_depth ∧ max_depth + 1 ≤ Z.of_nat stack).
Proof.
  intros Hclean Hres. unfold shortest_path in Hres.
  destruct (while_queue _ _ _ _ _ _ _) as [r t] eqn:Hrun. simpl in *. subst r.
  assert (He : e = RecursionError).
  { apply while_queue_clean in Hrun; [done..|apply reachable_init|].
    apply Forall_singleton. simpl. by apply elem_of_singleton. }
  split; [done|]. subst e. intros [Hmd Hstack].
  pose proof Hrun as Hraise.
  apply while_queue_raise in Hraise as [[=]|Hp].
  apply while_queue_inv in Hrun as [Htree Hall]; [|by apply loop_inv_init].
  destruct (decide (lower target_wallet ∈ observed_wallets t)) as [Hobs|Hobs].
  - destruct (Hall _ Hobs) as (ws & hs & Hch & Hlen).
    rewrite (chain_path_to_root _ _ _ _ Hch) in Hp by lia. done.
  - by rewrite path_to_root_unobserved in Hp.
Qed.

Lemma two_hop_clean : clean two_hop.
Proof.
  intros w tx. unfold two_hop. repeat case_bool_decide; subst.
  - intros ->%list_elem_of_singleton. discriminate.
  - intros ->%list_elem_of_singleton. discriminate.
  - intros Hin. by apply elem_of_nil in Hin.
Defined.

Lemma X16_no_exception_on_clean_data_witness :
  RecursionError = RecursionError ∧ ¬ (0 ≤ 1 ∧ 1 + 1 ≤ Z.of_nat 0).
Proof.
  apply (X16_no_exception_on_clean_data 2 0 two_hop "0xA" "0xB" 1).
  - exact two_hop_clean.
  - vm_compute. reflexivity.
Defined.

(** X17: no call of [shortest_path] raises [KeyError]: [path_to_root] is
    only run on trees in which every observed wallet other than the root
    has its entry in [parent_info]. *)
Theorem X17_never_key_error
    steps stack get_all_transactions source_wallet target_wallet max_depth :
  (shortest_path steps stack get_all_transactions
     source_wallet target_wallet max_depth).1 ≠ Raise KeyError.
Proof.
  intros Hres.
  pose proof (run_reachable steps stack get_all_transactions
                source_wallet target_wallet max_depth) as [Hr _].
  unfold shortest_path in *.
  destruct (while_queue _ _ _ _ _ _ _) as [r t] eqn:Hrun. simpl in *. subst r.
  apply while_queue_raise in Hrun as [[=]|Hp].
  by apply path_to_root_raise in Hp as [[[=] _]|[[=] _]].
Qed.

(** X18: a target within reach is found by a shortest path.  When no
    transaction has an empty counterpart, [0 <= max_depth], the stack
    allows [max_depth + 1] nested calls and the target can be reached from
    the source in [k + 1] hops with [k <= max_depth], the call returns a
    path (once the loop is given enough iterations), and that path has at
    most [k + 1] hashes. *)
Theorem X18_target_within_reach_is_found
    stack get_all_transactions source_wallet target_wallet max_depth k :
  clean get_all_transactions →
  0 ≤ max_depth →
  max_depth + 1 ≤ Z.of_nat stack →
  Z.of_nat k ≤ max_depth →
  route get_all_transactions (lower source_wallet) (lower target_wallet) (S k) →
  ∃ steps, ∀ steps', (steps ≤ steps')%nat →
    ∃ wallets txs,
      (shortest_path steps' stack get_all_transactions
         source_wallet target_wallet max_depth).1
      = Ok (Some (Path wallets txs)) ∧
      (length txs ≤ S k)%nat.
Proof.
  intros Hclean Hmd Hstack Hk Hroute.
  destruct (finishes_layers get_all_transactions (lower target_wallet)
              max_depth stack (Z.to_nat max_depth)
              [(lower source_wallet, 0)] []
              (transaction_tree_init (lower source_wallet)))
    as [steps Hsteps]; [apply Forall_singleton; simpl; lia|done|].
  exists steps. intros steps' Hle. specialize (Hsteps steps' Hle).
  unfold shortest_path. simpl app in Hsteps.
  destruct (while_queue _ _ _ _ _ _ _) as [r t] eqn:Hrun. simpl in *.
  destruct r as [[[ws hs|]|]|e]; [| |done|].
  - exists ws, hs. split; [done|].
    eapply (while_queue_optimal get_all_transactions (lower source_wallet));
      [by apply loop_inv_init|apply frontier_init|exact Hrun|exact Hroute].
  - exfalso.
    apply (while_queue_false get_all_transactions (lower source_wallet))
      in Hrun; [|apply frontier_init].
    apply (route_not_target get_all_transactions (lower source_wallet)
             (lower target_wallet) max_depth [] (Z.of_nat k + 1) k);
      try done; [|lia].
    intros x Hx. by apply elem_of_nil in Hx.
  - exfalso. pose proof Hrun as Hraise.
    apply while_queue_clean in Hraise as ->;
      [|done|apply reachable_init
       |apply Forall_singleton; simpl; by apply elem_of_singleton].
    pose proof Hrun as Hp. apply while_queue_raise in Hp as [[=]|Hp].
    apply while_queue_inv in Hrun as [Htree Hall]; [|by apply loop_inv_init].
    destruct (decide (lower target_wallet ∈ observed_wallets t)) as [Hobs|Hobs].
    + destruct (Hall _ Hobs) as (ws & hs & Hch & Hlen).
      rewrite (chain_path_to_root _ _ _ _ Hch) in Hp by lia. done.
    + by rewrite path_to_root_unobserved in Hp.
Qed.

Lemma X18_target_within_reach_is_found_witness :
  ∃ steps, ∀ steps', (steps ≤ steps')%nat →
    ∃ wallets txs,
      (shortest_path steps' 2 two_hop "0xA" "0xB" 1).1
      = Ok (Some (Path wallets txs)) ∧
      (length txs ≤ 2)%nat.
Proof.
  apply (X18_target_within_reach_is_found 2 two_hop "0xA" "0xB" 1 1).
  - exact two_hop_clean.
  - lia.
  - lia.
  - lia.
  - exact two_hop_route.
Defined.
